(** * The JavaScript runtime provider of the server: pool, callback lookup,
      invocation bridge and hook dispatch

    A shallow embedding of the runtime provider ([RuntimeJS],
    [RuntimeJSModuleCache], [RuntimeProviderJS] and its constructor) and of
    [server/runtime_javascript_context.go].  Go values are modelled as
    follows:
    - [uint32] as [Z] with the wrap-around of [Inc] written out;
    - Go maps as [gmap] (a lookup of an absent key yields the zero value);
    - the buffered channel [poolCh] as a FIFO list with a capacity;
    - a pair [(x, error)] of results as a pair with an [option error],
      or as a sum where exactly one side is non-nil;
    - pointers to protocol messages as locations of a message store;
    - a run-time panic and a goroutine blocked forever as results of their
      own ([Panic], [Blocked]).
    The script engine and the marshalers are libraries: a call of a script
    function yields its result and error or never returns (what it does to
    the interpreter it runs in is not followed), and the marshalers are the
    fields of a class.  Fields of log entries are left out. *)

From Stdlib Require Import ZArith Lia.
From stdpp Require Import base numbers list gmap strings sorting relations.

Local Open Scope Z_scope.
Set Warnings "-register-all".

(** ** Go basics *)

(** [uint32(x)] and the arithmetic of [atomic.Uint32]. *)
Definition uint32 (z : Z) : Z := z mod 2 ^ 32.

(** [google.golang.org/grpc/codes]: the three codes the provider uses. *)
Inductive Code := codes_OK | codes_NotFound | codes_Internal.

Definition code_number (c : Code) : Z :=
  match c with codes_OK => 0 | codes_NotFound => 5 | codes_Internal => 13 end.

(** ** Script errors ([JsErrorType], [jsError]) *)

Inductive JsErrorType := JsErrorException | JsErrorRuntime.

Definition JsErrorType_String (e : JsErrorType) : string :=
  match e with
  | JsErrorException => "exception"
  | _ => ""
  end.

(** The [error] values that flow through the provider.  [jsError] is the
    struct of the source; its [error] field is kept as the text of the
    wrapped error. *)
Inductive error :=
  | ErrRuntimeRPCNotFound
  | errors_New (msg : string)
  | context_Canceled
  | context_DeadlineExceeded
  | jsError (StackTrace type Message : string) (inner : string).

(** What a [goja.Callable] can fail with: an uncaught script exception
    ([*goja.Exception], with the texts of [Error()] and [String()]), or any
    other error of the engine. *)
Inductive goja_error :=
  | goja_Exception (Error_text String_text : string)
  | goja_other (Error_text : string).

Definition newJsExceptionError (t : JsErrorType) (err st : string) : error :=
  jsError st (JsErrorType_String t) "" err.

Definition newJsError (t : JsErrorType) (err : string) : error :=
  jsError "" (JsErrorType_String t) err err.

(** ** Execution modes *)

(** Modelled from the spec: [RuntimeExecutionMode] is declared in another
    file of the package.  The spec lists the modes [RPC], [Before],
    [After] and the reserved [Matchmaker], [TournamentEnd],
    [TournamentReset], [LeaderboardReset]; the type is an integer type, so
    one more constructor stands for every value that has no name here. *)
Inductive RuntimeExecutionMode :=
  | RuntimeExecutionModeRPC
  | RuntimeExecutionModeBefore
  | RuntimeExecutionModeAfter
  | RuntimeExecutionModeMatchmaker
  | RuntimeExecutionModeTournamentEnd
  | RuntimeExecutionModeTournamentReset
  | RuntimeExecutionModeLeaderboardReset
  | RuntimeExecutionModeOther.

(** Modelled from the spec: [RuntimeExecutionMode.String] is declared with
    the type; only used for log fields. *)
Definition RuntimeExecutionMode_String (e : RuntimeExecutionMode) : string :=
  match e with
  | RuntimeExecutionModeRPC => "rpc"
  | RuntimeExecutionModeBefore => "before"
  | RuntimeExecutionModeAfter => "after"
  | RuntimeExecutionModeMatchmaker => "matchmaker"
  | RuntimeExecutionModeTournamentEnd => "tournament_end"
  | RuntimeExecutionModeTournamentReset => "tournament_reset"
  | RuntimeExecutionModeLeaderboardReset => "leaderboard_reset"
  | RuntimeExecutionModeOther => ""
  end.

(** ** Values on both sides of the bridge *)

(** A generic Go value ([interface{}]): what [encoding/json] produces, or
    a value of the named integer type [RuntimeExecutionMode]. *)
Inductive GoAny :=
  | AnyNil
  | AnyBool (b : bool)
  | AnyNumber (n : Z)
  | AnyString (s : string)
  | AnySlice (items : list GoAny)
  | AnyMap (fields : list (string * GoAny))
  | AnyMode (e : RuntimeExecutionMode).

(** A [goja.Value] that is not the nil interface.  A Go value of a named
    type is no script primitive: the engine wraps it as a host object
    ([VHostObject]); the provider hands over execution modes only. *)
Inductive Value :=
  | Undefined
  | Null
  | VBool (b : bool)
  | VNumber (n : Z)
  | VString (s : string)
  | VArray (items : list Value)
  | VObject (fields : list (string * Value))
  | VHostObject (e : RuntimeExecutionMode).

(** [vm.ToValue]. *)
Fixpoint ToValue (a : GoAny) : Value :=
  match a with
  | AnyNil => Null
  | AnyBool b => VBool b
  | AnyNumber n => VNumber n
  | AnyString s => VString s
  | AnySlice items => VArray (map ToValue items)
  | AnyMap fields => VObject (map (λ kv, (kv.1, ToValue kv.2)) fields)
  | AnyMode e => VHostObject e
  end.

(** [float64(i)] of an integer: the nearest number with 53 significant
    bits, a tie going to the even one. *)
Definition float64_of_int (i : Z) : Z :=
  let a := Z.abs i in
  if decide (a < 2 ^ 53) then i
  else
    let e := Z.log2 a - 52 in
    let q := a / 2 ^ e in
    let r := a mod 2 ^ e in
    let half := 2 ^ (e - 1) in
    let q' :=
      if decide (r < half) then q
      else if decide (half < r) then q + 1
      else if Z.even q then q else q + 1 in
    Z.sgn i * (q' * 2 ^ e).

(** [vm.ToValue] of an [int64]: an integer up to [2^53] in size is a script
    integer, a larger one becomes a float. *)
Definition intToValue (i : Z) : Value :=
  if decide (- 2 ^ 53 ≤ i ≤ 2 ^ 53) then VNumber i
  else VNumber (float64_of_int i).

(** [Value.Export]. *)
Fixpoint Export (v : Value) : GoAny :=
  match v with
  | Undefined => AnyNil
  | Null => AnyNil
  | VBool b => AnyBool b
  | VNumber n => AnyNumber n
  | VString s => AnyString s
  | VArray items => AnySlice (map Export items)
  | VObject fields => AnyMap (map (λ kv, (kv.1, Export kv.2)) fields)
  | VHostObject e => AnyMode e
  end.

(** The type assertion [x.(string)]: the string and [ok]. *)
Definition assert_string (a : GoAny) : string * bool :=
  match a with
  | AnyString s => (s, true)
  | _ => ("", false)
  end.

(** [obj.Set(key, v)] on a script object. *)
Fixpoint object_Set (key : string) (v : Value) (fields : list (string * Value))
  : list (string * Value) :=
  match fields with
  | [] => [(key, v)]
  | (k, w) :: rest =>
      if decide (k = key) then (k, v) :: rest else (k, w) :: object_Set key v rest
  end.

(** How a call of a script function ends: it returns a value ([None] for
    the nil interface) and an error, or it never returns (the script
    loops; the provider sets no interrupt and no timeout). *)
Inductive Outcome :=
  | returns (retVal : option Value) (err : option goja_error)
  | never_returns.

(** A script callable: [func(this Value, args ...Value) (Value, error)].
    [this] is always [goja.Null()] here. *)
Definition JsFunction : Type := list Value → Outcome.

(** [goja.Callable] is a func type, so it may be nil. *)
Definition Callable : Type := option JsFunction.

(** ** The callback registry *)

Module Callbacks.
(** [RuntimeJavascriptCallbacks]. *)
Record t := mk {
  Rpc : gmap string Callable;
  Before : gmap string Callable;
  After : gmap string Callable;
}.
End Callbacks.

(** [m[key]] on a Go map of callables: nil when the key is absent. *)
Definition map_index (m : gmap string Callable) (key : string) : Callable :=
  match m !! key with
  | Some fn => fn
  | None => None
  end.

(** [RuntimeJS]: one interpreter instance.  [vm] identifies the
    [*goja.Runtime] the instance owns; the bound logger, [nk] and [env]
    objects are script values. *)
Record RuntimeJS := mkRuntimeJS {
  vm : nat;
  node : string;
  nkInst : Value;
  jsLoggerInst : Value;
  env : Value;
  callbacks : Callbacks.t;
}.

Definition GetCallback (r : RuntimeJS) (e : RuntimeExecutionMode) (key : string)
  : Callable :=
  match e with
  | RuntimeExecutionModeRPC => map_index (Callbacks.Rpc (callbacks r)) key
  | RuntimeExecutionModeBefore => map_index (Callbacks.Before (callbacks r)) key
  | RuntimeExecutionModeAfter => map_index (Callbacks.After (callbacks r)) key
  | RuntimeExecutionModeMatchmaker => None
  | RuntimeExecutionModeTournamentEnd => None
  | RuntimeExecutionModeTournamentReset => None
  | RuntimeExecutionModeLeaderboardReset => None
  | RuntimeExecutionModeOther => None
  end.

(** ** The module cache *)

Record RuntimeJSModule := mkModule {
  Name : string;
  Path : string;
  Program : string;
}.

Record RuntimeJSModuleCache := mkCache {
  Names : list string;
  Modules : gmap string RuntimeJSModule;
}.

(** The order of [sort.Strings]: Go compares strings byte by byte. *)
Definition string_le (a b : string) : Prop := String.leb a b = true.

Global Instance string_le_dec a b : Decision (string_le a b).
Proof. unfold string_le. apply _. Defined.

(** [sort.Strings].  The order is total and antisymmetric, so the sorted
    arrangement of a list is unique ([sort_Strings_unique] below) and any
    sorting algorithm computes it. *)
Definition sort_Strings (l : list string) : list string :=
  merge_sort string_le l.

Definition Add (mc : RuntimeJSModuleCache) (m : RuntimeJSModule)
  : RuntimeJSModuleCache :=
  {| Names := sort_Strings (Names mc ++ [Name m]);
     Modules := <[Name m := m]> (Modules mc) |}.

(** The cache [cacheJavascriptModules] starts from. *)
Definition empty_cache : RuntimeJSModuleCache :=
  {| Names := []; Modules := ∅ |}.

(** A run of [Add] calls, in the order of discovery. *)
Definition add_all (ms : list RuntimeJSModule) : RuntimeJSModuleCache :=
  foldl Add empty_cache ms.

(** ** Cancellation signals and [select] *)

(** A [context.Context] as one call of [Get] sees it: [Done()] is closed
    when the call starts and [Err()] is [err]; or it is still open, and
    [later] tells whether the signal fires while the call waits (and with
    which error) or never does. *)
Inductive Context :=
  | ctx_done (err : error)
  | ctx_pending (later : option error).

(** When several cases of a [select] are ready the Go runtime picks one of
    them; the pick is an input of the model. *)
Inductive Ready := ready_done | ready_recv.

(** ** The provider: pool state *)

(** The fields of [RuntimeProviderJS] that make up the pool.  [newFn] closes
    over the configuration and the callbacks; [newFn_calls] counts the
    runtimes constructed so far (at start-up and by [Get]) and numbers the
    [goja] runtime of each new instance. *)
Record RuntimeProviderJS := mkProvider {
  poolCh : list RuntimeJS;
  poolCh_cap : Z;
  maxCount : Z;
  currentCount : Z;
  config_Name : string;
  config_Environment : Value;
  newFn_callbacks : Callbacks.t;
  newFn_calls : nat;
}.

Definition with_poolCh (q : list RuntimeJS) (rp : RuntimeProviderJS) :=
  mkProvider q (poolCh_cap rp) (maxCount rp) (currentCount rp)
    (config_Name rp) (config_Environment rp) (newFn_callbacks rp) (newFn_calls rp).

Definition with_currentCount (c : Z) (rp : RuntimeProviderJS) :=
  mkProvider (poolCh rp) (poolCh_cap rp) (maxCount rp) c
    (config_Name rp) (config_Environment rp) (newFn_callbacks rp) (newFn_calls rp).

Definition with_newFn_calls (n : nat) (rp : RuntimeProviderJS) :=
  mkProvider (poolCh rp) (poolCh_cap rp) (maxCount rp) (currentCount rp)
    (config_Name rp) (config_Environment rp) (newFn_callbacks rp) n.

(** [rp.newFn()]: a fresh runtime with its bound objects. *)
Definition newFn (rp : RuntimeProviderJS) : RuntimeProviderJS * RuntimeJS :=
  (with_newFn_calls (S (newFn_calls rp)) rp,
   {| vm := newFn_calls rp;
      node := config_Name rp;
      nkInst := VObject [];
      jsLoggerInst := VObject [];
      env := config_Environment rp;
      callbacks := newFn_callbacks rp |}).

(** [rp.currentCount.Load()] and [rp.currentCount.Inc()] on the
    [atomic.Uint32]; [Inc] returns the new value. *)
Definition counter_Load (rp : RuntimeProviderJS) : Z := currentCount rp.

Definition counter_Inc (rp : RuntimeProviderJS) : RuntimeProviderJS * Z :=
  let v := uint32 (currentCount rp + 1) in (with_currentCount v rp, v).

(** [<-rp.poolCh] when a value is buffered. *)
Definition chan_recv (rp : RuntimeProviderJS) : option (RuntimeJS * RuntimeProviderJS) :=
  match poolCh rp with
  | [] => None
  | r :: q => Some (r, with_poolCh q rp)
  end.

(** [rp.poolCh <- r] when the buffer has room. *)
Definition chan_send (rp : RuntimeProviderJS) (r : RuntimeJS) : option RuntimeProviderJS :=
  if decide (Z.of_nat (length (poolCh rp)) < poolCh_cap rp)
  then Some (with_poolCh (poolCh rp ++ [r]) rp)
  else None.

(** The two receiving cases of the [select]s of [Get]: the result of the
    case that runs, or [None] when no case is ready. *)
Definition select_ready (sel : Ready) (ctx : Context) (rp : RuntimeProviderJS)
  : option (RuntimeProviderJS * (RuntimeJS + error)) :=
  match ctx, chan_recv rp with
  | ctx_done err, Some (r, rp') =>
      match sel with
      | ready_done => Some (rp, inr err)
      | ready_recv => Some (rp', inl r)
      end
  | ctx_done err, None => Some (rp, inr err)
  | ctx_pending _, Some (r, rp') => Some (rp', inl r)
  | ctx_pending _, None => None
  end.

(** The [default] case of the first [select] of [Get]: check, increment,
    check again, and allocate.  [None] stands for [break]. *)
Definition Get_default (rp : RuntimeProviderJS) : RuntimeProviderJS * option RuntimeJS :=
  if decide (maxCount rp ≤ counter_Load rp) then (rp, None)
  else
    let '(rp1, currentCount') := counter_Inc rp in
    if decide (maxCount rp1 < currentCount') then (rp1, None)
    else let '(rp2, r) := newFn rp1 in (rp2, Some r).

(** ** Log output *)

Inductive Level := level_Warn | level_Error.

Record LogEntry := mkLog { log_level : Level; log_msg : string }.

(** ** Results of a call *)

(** A call returns, panics, or never returns: it waits on a channel that
    nobody fills, or it runs a script function that never returns. *)
Inductive Res (A : Type) :=
  | Ret (a : A)
  | Panic (msg : string)
  | Blocked.
Arguments Ret {A} a.
Arguments Panic {A} msg.
Arguments Blocked {A}.

(** A request or response passed as [interface{}]: nil, a pointer to a
    protocol message, or a value that is no [proto.Message]. *)
Inductive Iface :=
  | iface_nil
  | iface_message (p : positive)
  | iface_other.

(** Functions the provider uses and does not define: the [jsonpb]
    marshaler and unmarshaler over the protocol messages, and
    [encoding/json].  [json_Unmarshal] fills a nil [map[string]interface{}]
    ([None] is the nil map); [jsonpb_Unmarshal] writes into the message it
    is given. *)
Class Externals (Message : Type) := {
  jsonpb_MarshalToString : Message → string * option error;
  json_Unmarshal : string → option (list (string * GoAny)) * option error;
  json_Marshal : Value → string * option error;
  jsonpb_Unmarshal : string → Message → Message * option error;
}.

(** ** The invocation context ([runtime_javascript_context.go]) *)

Definition __RUNTIME_JAVASCRIPT_CTX_ENV : string := "env".
Definition __RUNTIME_JAVASCRIPT_CTX_MODE : string := "execution_mode".
Definition __RUNTIME_JAVASCRIPT_CTX_NODE : string := "node".
Definition __RUNTIME_JAVASCRIPT_CTX_QUERY_PARAMS : string := "query_params".
Definition __RUNTIME_JAVASCRIPT_CTX_USER_ID : string := "user_id".
Definition __RUNTIME_JAVASCRIPT_CTX_USERNAME : string := "username".
Definition __RUNTIME_JAVASCRIPT_CTX_VARS : string := "vars".
Definition __RUNTIME_JAVASCRIPT_CTX_USER_SESSION_EXP : string := "user_session_exp".
Definition __RUNTIME_JAVASCRIPT_CTX_SESSION_ID : string := "session_id".
Definition __RUNTIME_JAVASCRIPT_CTX_CLIENT_IP : string := "client_ip".
Definition __RUNTIME_JAVASCRIPT_CTX_CLIENT_PORT : string := "client_port".

(** [map[string][]string] and [map[string]string] as generic Go values.
    The engine wraps such a map; a script sees an object with the entries
    of the map, which is what [ToValue] makes of these. *)
Definition queryParams_any (m : gmap string (list string)) : GoAny :=
  AnyMap (map (λ kv, (kv.1, AnySlice (map AnyString kv.2))) (map_to_list m)).

Definition vars_any (m : gmap string string) : GoAny :=
  AnyMap (map (λ kv, (kv.1, AnyString kv.2)) (map_to_list m)).

(** [if cond { ctxObj.Set(key, v) }]. *)
Definition Set_if (cond : bool) (key : string) (v : Value)
    (fields : list (string * Value)) : list (string * Value) :=
  if cond then object_Set key v fields else fields.

Definition nonempty (s : string) : bool := bool_decide (s ≠ "").

(** [ctxObj.Set(key, x)] converts the Go value [x] as [vm.ToValue] does:
    a string to a script string, the [int64] expiry with [intToValue], the
    mode (a value of a named type) to a host object, a map to an object. *)
Definition NewRuntimeJsContext
    (node : string) (env : Value) (mode : RuntimeExecutionMode)
    (queryParams : option (gmap string (list string))) (sessionExpiry : Z)
    (userID username : string) (vars : option (gmap string string))
    (sessionID clientIP clientPort : string) : Value :=
  let ctxObj := [] in
  let ctxObj := object_Set __RUNTIME_JAVASCRIPT_CTX_NODE (VString node) ctxObj in
  let ctxObj := object_Set __RUNTIME_JAVASCRIPT_CTX_ENV env ctxObj in
  let ctxObj := object_Set __RUNTIME_JAVASCRIPT_CTX_MODE (ToValue (AnyMode mode)) ctxObj in
  let ctxObj :=
    match queryParams with
    | Some q => object_Set __RUNTIME_JAVASCRIPT_CTX_QUERY_PARAMS (ToValue (queryParams_any q)) ctxObj
    | None => ctxObj
    end in
  let ctxObj := Set_if (bool_decide (sessionExpiry ≠ 0))
                  __RUNTIME_JAVASCRIPT_CTX_USER_SESSION_EXP (intToValue sessionExpiry) ctxObj in
  let ctxObj := Set_if (nonempty userID) __RUNTIME_JAVASCRIPT_CTX_USER_ID (VString userID) ctxObj in
  let ctxObj := Set_if (nonempty username) __RUNTIME_JAVASCRIPT_CTX_USERNAME (VString username) ctxObj in
  let ctxObj :=
    match vars with
    | Some v => object_Set __RUNTIME_JAVASCRIPT_CTX_VARS (ToValue (vars_any v)) ctxObj
    | None => ctxObj
    end in
  let ctxObj := Set_if (nonempty sessionID) __RUNTIME_JAVASCRIPT_CTX_SESSION_ID (VString sessionID) ctxObj in
  let ctxObj := Set_if (nonempty clientIP) __RUNTIME_JAVASCRIPT_CTX_CLIENT_IP (VString clientIP) ctxObj in
  let ctxObj := Set_if (nonempty clientPort) __RUNTIME_JAVASCRIPT_CTX_CLIENT_PORT (VString clientPort) ctxObj in
  VObject ctxObj.

(** ** The provider at work: state, calls and their results *)

Section Provider.
Context {Message : Type} `{!Externals Message}.

(** What a hook dispatch reads and writes: the pool, the protocol
    messages behind the pointers it is handed, and the log.  A pointer with
    no message behind it is a nil pointer. *)
Record World := mkWorld {
  provider : RuntimeProviderJS;
  messages : gmap positive Message;
  logged : list LogEntry;
}.

Definition with_provider (rp : RuntimeProviderJS) (w : World) : World :=
  mkWorld rp (messages w) (logged w).

Definition with_message (p : positive) (m : Message) (w : World) : World :=
  mkWorld (provider w) (<[p := m]> (messages w)) (logged w).

Definition with_log (e : LogEntry) (w : World) : World :=
  mkWorld (provider w) (messages w) (logged w ++ [e]).

(** A call: a function of the state that yields the state it leaves and
    how it ends. *)
Definition M (A : Type) : Type := World → World * Res A.

Definition ret {A} (a : A) : M A := λ w, (w, Ret a).

Definition bind {A B} (c : M A) (k : A → M B) : M B := λ w,
  match c w with
  | (w', Ret a) => k a w'
  | (w', Panic msg) => (w', Panic msg)
  | (w', Blocked) => (w', Blocked)
  end.

Definition panic {A} (msg : string) : M A := λ w, (w, Panic msg).

Definition logger_Error (msg : string) : M unit := λ w,
  (with_log (mkLog level_Error msg) w, Ret tt).

Definition logger_Warn (msg : string) : M unit := λ w,
  (with_log (mkLog level_Warn msg) w, Ret tt).

(** [rp.jsonpbMarshaler.MarshalToString(p)].  A pointer with no message
    behind it is the nil pointer, which the marshaler refuses with an
    error. *)
Definition MarshalToString (p : positive) : M (string * option error) := λ w,
  match messages w !! p with
  | Some m => (w, Ret (jsonpb_MarshalToString m))
  | None => (w, Ret ("", Some (errors_New "Marshal called with nil")))
  end.

(** Reading through a message pointer, as the unmarshaler does when it
    writes into the message.  The dispatchers unmarshal into a pointer only
    after they have marshaled the message behind it, so the pointer is not
    nil there ([hook_dispatchers_never_panic] below). *)
Definition load (p : positive) : M Message := λ w,
  match messages w !! p with
  | Some m => (w, Ret m)
  | None => (w, Panic "invalid memory address or nil pointer dereference")
  end.

Definition store (p : positive) (m : Message) : M unit := λ w,
  (with_message p m w, Ret tt).

(** *** [Get] and [Put] *)

Definition Get (sel : Ready) (ctx : Context) : M (RuntimeJS + error) := λ w,
  match select_ready sel ctx (provider w) with
  | Some (rp', res) => (with_provider rp' w, Ret res)
  | None =>
      (* default: if there was no idle runtime, see if a new one may be allocated *)
      match Get_default (provider w) with
      | (rp1, Some r) => (with_provider rp1 w, Ret (inl r))
      | (rp1, None) =>
          (* wait as needed *)
          match select_ready sel ctx rp1 with
          | Some (rp2, res) => (with_provider rp2 w, Ret res)
          | None =>
              match ctx with
              | ctx_pending (Some err) => (with_provider rp1 w, Ret (inr err))
              | _ => (with_provider rp1 w, Blocked)
              end
          end
      end
  end.

Definition Put (r : RuntimeJS) : M unit := λ w,
  match chan_send (provider w) r with
  | Some rp' => (with_provider rp' w, Ret tt)
  | None => logger_Warn "Runtime pool full, discarding Lua runtime" w
  end.
End Provider.

Arguments World : clear implicits.
Arguments M : clear implicits.

Notation "'let!' x := c 'in' k" := (bind c (λ x, k))
  (at level 10, x name, c at level 100, k at level 200, only parsing).
Notation "'let!' ' pat := c 'in' k" := (bind c (λ x, match x with pat => k end))
  (at level 10, pat pattern, c at level 100, k at level 200, only parsing).
Notation "'do!' c 'in' k" := (bind c (λ _, k))
  (at level 10, c at level 100, k at level 200, only parsing).

Section Dispatch.
Context {Message : Type} `{!Externals Message}.

(** *** The invocation bridge *)

(** The arguments the callable receives: context, logger object, host
    module object, then the payloads. *)
Definition invoke_args (r : RuntimeJS) (execMode : RuntimeExecutionMode)
    (queryParams : option (gmap string (list string)))
    (uid username : string) (vars : option (gmap string string))
    (sessionExpiry : Z) (sid clientIP clientPort : string)
    (payloads : list GoAny) : list Value :=
  let ctx := NewRuntimeJsContext (node r) (env r) execMode queryParams
               sessionExpiry uid username vars sid clientIP clientPort in
  let args := [ctx; jsLoggerInst r; nkInst r] in
  args ++ map ToValue payloads.

(** [retVal == nil || retVal == goja.Undefined() || retVal == goja.Null()]. *)
Definition nothing (retVal : option Value) : bool :=
  match retVal with
  | None | Some Undefined | Some Null => true
  | _ => false
  end.

Definition InvokeFunction (r : RuntimeJS) (execMode : RuntimeExecutionMode)
    (id : string) (fn : JsFunction)
    (queryParams : option (gmap string (list string)))
    (uid username : string) (vars : option (gmap string string))
    (sessionExpiry : Z) (sid clientIP clientPort : string)
    (payloads : list GoAny) : M Message (option Value * option error * Code) :=
  let jv := invoke_args r execMode queryParams uid username vars
              sessionExpiry sid clientIP clientPort payloads in
  match fn jv with
  | never_returns => λ w, (w, Blocked)
  | returns _ (Some (goja_Exception err st)) =>
      do! logger_Error "javascript runtime function raised an uncaught exception" in
      ret (None, Some (newJsExceptionError JsErrorException err st), codes_Internal)
  | returns _ (Some (goja_other err)) =>
      do! logger_Error "javascript runtime function caused an error" in
      ret (None, Some (newJsError JsErrorRuntime err), codes_Internal)
  | returns retVal None =>
      if nothing retVal then ret (None, None, codes_OK)
      else ret (retVal, None, codes_OK)
  end.

(** A [map[string]interface{}] handed over as a payload. *)
Definition map_any (m : option (list (string * GoAny))) : GoAny :=
  match m with
  | Some fields => AnyMap fields
  | None => AnyNil
  end.

(** *** RPC *)

Definition Rpc (sel : Ready) (ctx : Context) (id : string)
    (queryParams : option (gmap string (list string)))
    (userID username : string) (vars : option (gmap string string))
    (expiry : Z) (sessionID clientIP clientPort payload : string)
  : M Message (string * option error * Code) :=
  let! got := Get sel ctx in
  match got with
  | inr err => ret ("", Some err, codes_Internal)
  | inl r =>
      match GetCallback r RuntimeExecutionModeRPC id with
      | None =>
          do! Put r in
          ret ("", Some ErrRuntimeRPCNotFound, codes_NotFound)
      | Some jsFn =>
          let! '(retValue, err, code) := InvokeFunction r RuntimeExecutionModeRPC id jsFn queryParams userID
              username vars expiry sessionID clientIP clientPort [AnyString payload] in
          match err with
          | Some err => ret ("", Some err, code)
          | None =>
              match retValue with
              | None =>
                  (* retValue.Export() on the nil interface *)
                  panic "invalid memory address or nil pointer dereference"
              | Some v =>
                  let '(payload, ok) := assert_string (Export v) in
                  if ok then ret (payload, None, code)
                  else
                    let msg := "Runtime function returned invalid data - only allowed one return value of type string." in
                    do! logger_Error msg in
                    ret ("", Some (errors_New msg), codes_Internal)
              end
          end
      end
  end.

(** *** Realtime hooks *)

Definition BeforeRt (sel : Ready) (ctx : Context) (id : string)
    (userID username : string) (vars : option (gmap string string))
    (expiry : Z) (sessionID clientIP clientPort : string) (envelope : positive)
  : M Message (option positive * option error) :=
  let! got := Get sel ctx in
  match got with
  | inr err => ret (None, Some err)
  | inl r =>
      match GetCallback r RuntimeExecutionModeBefore id with
      | None =>
          do! Put r in
          ret (None, Some (errors_New "Runtime Before function not found."))
      | Some jsFn =>
          let! marshalled := MarshalToString envelope in
          match marshalled with
          | (_, Some _) =>
              do! Put r in
              do! logger_Error "Could not marshall envelope to JSON" in
              ret (None, Some (errors_New "Could not run runtime Before function."))
          | (envelopeJSON, None) =>
              match json_Unmarshal envelopeJSON with
              | (_, Some _) =>
                  do! Put r in
                  do! logger_Error "Could not unmarshall envelope to interface{}" in
                  ret (None, Some (errors_New "Could not run runtime Before function."))
              | (envelopeMap, None) =>
                  let! '(result, fnErr, _) := InvokeFunction r RuntimeExecutionModeBefore id jsFn None userID
                      username vars expiry sessionID clientIP clientPort
                      [map_any envelopeMap] in
                  do! Put r in
                  match fnErr with
                  | Some fnErr =>
                      do! logger_Error "Runtime Before function caused an error." in
                      ret (None, Some fnErr)
                  | None =>
                      match result with
                      | None => ret (None, None)
                      | Some result =>
                          match json_Marshal result with
                          | (_, Some _) =>
                              do! logger_Error "Could not marshal result to JSON" in
                              ret (None, Some (errors_New "Could not complete runtime Before function."))
                          | (resultJSON, None) =>
                              let! cur := load envelope in
                              let '(cur', err) := jsonpb_Unmarshal resultJSON cur in
                              do! store envelope cur' in
                              match err with
                              | Some _ =>
                                  do! logger_Error "Could not unmarshal result to envelope" in
                                  ret (None, Some (errors_New "Could not complete runtime Before function."))
                              | None => ret (Some envelope, None)
                              end
                          end
                      end
                  end
              end
          end
      end
  end.

Definition AfterRt (sel : Ready) (ctx : Context) (id : string)
    (userID username : string) (vars : option (gmap string string))
    (expiry : Z) (sessionID clientIP clientPort : string) (envelope : positive)
  : M Message (option error) :=
  let! got := Get sel ctx in
  match got with
  | inr err => ret (Some err)
  | inl r =>
      match GetCallback r RuntimeExecutionModeAfter id with
      | None =>
          do! Put r in
          ret (Some (errors_New "Runtime Before function not found."))
      | Some jsFn =>
          let! marshalled := MarshalToString envelope in
          match marshalled with
          | (_, Some _) =>
              do! Put r in
              do! logger_Error "Could not marshall envelope to JSON" in
              ret (Some (errors_New "Could not run runtime Before function."))
          | (envelopeJSON, None) =>
              match json_Unmarshal envelopeJSON with
              | (_, Some _) =>
                  do! Put r in
                  do! logger_Error "Could not unmarshall envelope to interface{}" in
                  ret (Some (errors_New "Could not run runtime Before function."))
              | (envelopeMap, None) =>
                  let! '(_, fnErr, _) := InvokeFunction r RuntimeExecutionModeAfter id jsFn None userID
                      username vars expiry sessionID clientIP clientPort
                      [map_any envelopeMap] in
                  do! Put r in
                  match fnErr with
                  | Some fnErr =>
                      do! logger_Error "Runtime Before function caused an error." in
                      ret (Some fnErr)
                  | None => ret None
                  end
              end
          end
      end
  end.

(** *** Typed-request hooks *)

(** The block [if req != nil { ... }] of [BeforeReq] and [AfterReq], which
    also runs on the response in [AfterReq] ([what] is "request" or
    "response" in the log texts).  It yields the generic map and the
    message pointer, both nil for a nil [req]; on each of its three
    failures the runtime is put back, the failure is logged, and the
    caller returns ([None]). *)
Definition message_map (r : RuntimeJS) (what : string) (req : Iface)
  : M Message (option (option (list (string * GoAny)) * option positive)) :=
  match req with
  | iface_nil => ret (Some (None, None))
  | iface_other =>
      do! Put r in
      do! logger_Error ("Could not cast " +:+ what +:+ " to message") in
      ret None
  | iface_message reqProto =>
      let! marshalled := MarshalToString reqProto in
      match marshalled with
      | (_, Some _) =>
          do! Put r in
          do! logger_Error ("Could not marshall " +:+ what +:+ " to JSON") in
          ret None
      | (reqJSON, None) =>
          match json_Unmarshal reqJSON with
          | (_, Some _) =>
              do! Put r in
              do! logger_Error ("Could not unmarshall " +:+ what +:+ " to interface{}") in
              ret None
          | (reqMap, None) => ret (Some (reqMap, Some reqProto))
          end
      end
  end.

Definition BeforeReq (sel : Ready) (ctx : Context) (id : string)
    (userID username : string) (vars : option (gmap string string))
    (expiry : Z) (clientIP clientPort : string) (req : Iface)
  : M Message (Iface * option error * Code) :=
  let! got := Get sel ctx in
  match got with
  | inr err => ret (iface_nil, Some err, codes_Internal)
  | inl r =>
      match GetCallback r RuntimeExecutionModeBefore id with
      | None =>
          do! Put r in
          ret (iface_nil, Some (errors_New "Runtime Before function not found."), codes_NotFound)
      | Some jsFn =>
          let! marshalled := message_map r "request" req in
          match marshalled with
          | None =>
              ret (iface_nil, Some (errors_New "Could not run runtime Before function."), codes_Internal)
          | Some (reqMap, reqProto) =>
              let! '(result, fnErr, code) :=
                InvokeFunction r RuntimeExecutionModeBefore id jsFn None userID
                  username vars expiry "" clientIP clientPort [map_any reqMap] in
              do! Put r in
              match fnErr with
              | Some fnErr =>
                  do! logger_Error "Runtime Before function caused an error." in
                  ret (iface_nil, Some fnErr, code)
              | None =>
                  match result, reqMap with
                  | None, _ | _, None =>
                      (* no return value, or none expected (no input to override) *)
                      ret (iface_nil, None, codes_OK)
                  | Some result, Some _ =>
                      match json_Marshal result with
                      | (_, Some _) =>
                          do! logger_Error "Could not marshall result to JSON" in
                          ret (iface_nil, Some (errors_New "Could not complete runtime Before function."), codes_Internal)
                      | (resultJSON, None) =>
                          match reqProto with
                          | None => panic "invalid memory address or nil pointer dereference"
                          | Some reqProto =>
                              let! cur := load reqProto in
                              let '(cur', err) := jsonpb_Unmarshal resultJSON cur in
                              do! store reqProto cur' in
                              match err with
                              | Some _ =>
                                  do! logger_Error "Could not unmarshall result to request" in
                                  ret (iface_nil, Some (errors_New "Could not complete runtime Before function."), codes_Internal)
                              | None => ret (req, None, codes_OK)
                              end
                          end
                      end
                  end
              end
          end
      end
  end.

Definition AfterReq (sel : Ready) (ctx : Context) (id : string)
    (userID username : string) (vars : option (gmap string string))
    (expiry : Z) (clientIP clientPort : string) (res req : Iface)
  : M Message (option error) :=
  let! got := Get sel ctx in
  match got with
  | inr err => ret (Some err)
  | inl r =>
      match GetCallback r RuntimeExecutionModeAfter id with
      | None =>
          do! Put r in
          ret (Some (errors_New "Runtime After function not found."))
      | Some jsFn =>
          let! marshalled := message_map r "response" res in
          match marshalled with
          | None => ret (Some (errors_New "Could not run runtime After function."))
          | Some (resMap, _) =>
              let! marshalled := message_map r "request" req in
              match marshalled with
              | None => ret (Some (errors_New "Could not run runtime After function."))
              | Some (reqMap, _) =>
                  let! '(_, fnErr, _) :=
                    InvokeFunction r RuntimeExecutionModeAfter id jsFn None userID
                      username vars expiry "" clientIP clientPort
                      [map_any resMap; map_any reqMap] in
                  do! Put r in
                  match fnErr with
                  | Some fnErr =>
                      do! logger_Error "Runtime After function caused an error." in
                      ret (Some fnErr)
                  | None => ret None
                  end
              end
          end
      end
  end.
End Dispatch.

(** ** Construction of the provider *)

(** The warm-up loop of [NewRuntimeProviderJS]:
    [for i := 0; i < MinCount; i++ { poolCh <- newFn() }].  The send blocks
    when the buffer is full, and nothing receives during start-up. *)
Fixpoint warm_up (n : nat) (rp : RuntimeProviderJS) : Res RuntimeProviderJS :=
  match n with
  | O => Ret rp
  | S n' =>
      let '(rp1, r) := newFn rp in
      match chan_send rp1 r with
      | Some rp2 => warm_up n' rp2
      | None => Blocked
      end
  end.

(** The pool that [NewRuntimeProviderJS] sets up, from [MinCount] and
    [MaxCount] of the configuration, the module cache and the callbacks that
    the evaluation of the modules registered (the path on which the modules
    load and evaluate; otherwise the function panics or returns the error
    before any runtime is made). *)
Definition NewRuntimeProviderJS (MinCount MaxCount : Z) (name : string)
    (environment : Value) (modCache : RuntimeJSModuleCache)
    (callbacks : Callbacks.t) : Res RuntimeProviderJS :=
  if decide (MaxCount < 0) then Panic "makechan: size out of range"
  else
    let runtimeProviderJS :=
      {| poolCh := [];
         poolCh_cap := MaxCount;
         maxCount := uint32 MaxCount;
         currentCount := uint32 MinCount;
         config_Name := name;
         config_Environment := environment;
         newFn_callbacks := callbacks;
         newFn_calls := 0 |} in
    if decide (0 < length (Names modCache))%nat
    then warm_up (Z.to_nat MinCount) runtimeProviderJS
    else Ret runtimeProviderJS.

(** ** Concurrent callers of the pool *)

(** Where a goroutine stands with respect to the pool.  The steps of [Get]
    that touch shared state ([select], [Load], [Inc], [newFn]) are separate
    program points, so that other goroutines may run in between. *)
Inductive Pc :=
  | pc_outside                       (* not in [Get], holding no runtime *)
  | pc_default                       (* the first [select] took [default] *)
  | pc_inc                           (* [Load] was below [maxCount] *)
  | pc_recheck (currentCount' : Z)   (* [Inc] returned this value *)
  | pc_wait                          (* at the second [select] *)
  | pc_holding (r : RuntimeJS).      (* [Get] returned [r] *)

(** One step of one goroutine.  The cancellation signal of a call may fire
    at any time, so the [Done] cases are always enabled. *)
Inductive thread_step :
    RuntimeProviderJS → Pc → RuntimeProviderJS → Pc → Prop :=
  | step_done rp pc :
      pc = pc_outside ∨ pc = pc_wait →
      thread_step rp pc rp pc_outside
  | step_recv rp pc r rp' :
      pc = pc_outside ∨ pc = pc_wait →
      chan_recv rp = Some (r, rp') →
      thread_step rp pc rp' (pc_holding r)
  | step_default rp :
      chan_recv rp = None →
      thread_step rp pc_outside rp pc_default
  | step_load_full rp :
      maxCount rp ≤ counter_Load rp →
      thread_step rp pc_default rp pc_wait
  | step_load_below rp :
      counter_Load rp < maxCount rp →
      thread_step rp pc_default rp pc_inc
  | step_inc rp rp' v :
      counter_Inc rp = (rp', v) →
      thread_step rp pc_inc rp' (pc_recheck v)
  | step_recheck_over rp v :
      maxCount rp < v →
      thread_step rp (pc_recheck v) rp pc_wait
  | step_new rp v rp' r :
      v ≤ maxCount rp →
      newFn rp = (rp', r) →
      thread_step rp (pc_recheck v) rp' (pc_holding r)
  | step_put rp r rp' :
      chan_send rp r = Some rp' →
      thread_step rp (pc_holding r) rp' pc_outside
  | step_discard rp r :
      chan_send rp r = None →
      thread_step rp (pc_holding r) rp pc_outside
  | step_keep rp r :
      (* the caller returns without [Put], as [Rpc] does after the call *)
      thread_step rp (pc_holding r) rp pc_outside.

Record Sys := mkSys {
  sys_pool : RuntimeProviderJS;
  sys_threads : list Pc;
}.

(** One step of the system: a step of one goroutine, or a [Put] that hands
    its runtime to a goroutine blocked in the second [select]. *)
Inductive sys_step : Sys → Sys → Prop :=
  | sys_thread rp ths i pc rp' pc' :
      ths !! i = Some pc →
      thread_step rp pc rp' pc' →
      sys_step (mkSys rp ths) (mkSys rp' (<[i := pc']> ths))
  | sys_handoff rp ths i j r :
      ths !! i = Some (pc_holding r) →
      ths !! j = Some pc_wait →
      sys_step (mkSys rp ths)
               (mkSys rp (<[j := pc_holding r]> (<[i := pc_outside]> ths))).

(** The system right after construction: [T] goroutines, none in [Get]. *)
Definition initial_sys (rp : RuntimeProviderJS) (T : nat) : Sys :=
  mkSys rp (replicate T pc_outside).

(** Counting goroutines by program point. *)
Definition tally (f : Pc → nat) (ths : list Pc) : nat :=
  foldr (λ pc n, (f pc + n)%nat) 0%nat ths.

Definition at_inc (pc : Pc) : nat :=
  match pc with pc_inc => 1 | _ => 0 end.

Definition at_new (m : Z) (pc : Pc) : nat :=
  match pc with
  | pc_recheck v => if decide (v ≤ m) then 1 else 0
  | _ => 0
  end.

Definition at_holding (pc : Pc) : nat :=
  match pc with pc_holding _ => 1 | _ => 0 end.

(** Idle and checked-out runtimes. *)
Definition idle (s : Sys) : nat := length (poolCh (sys_pool s)).
Definition checked_out (s : Sys) : nat := tally at_holding (sys_threads s).

(** The invariant of the pool under concurrent callers.  [m] is the limit,
    [T] the number of goroutines, [b] the part of the initial counter value
    that no runtime stands for, [a0] the number of runtimes constructed at
    start-up. *)
Record pool_inv (m : Z) (T : nat) (b : Z) (a0 : nat) (s : Sys) : Prop := {
  inv_max : maxCount (sys_pool s) = m;
  inv_threads : length (sys_threads s) = T;
  inv_count : 0 ≤ currentCount (sys_pool s);
  inv_inc :
    (0 < tally at_inc (sys_threads s))%nat →
    currentCount (sys_pool s) + Z.of_nat (tally at_inc (sys_threads s))
      ≤ m + Z.of_nat T - 1;
  inv_base :
    b + Z.of_nat (newFn_calls (sys_pool s) + tally (at_new m) (sys_threads s))
      ≤ currentCount (sys_pool s);
  inv_alloc :
    (newFn_calls (sys_pool s) + tally (at_new m) (sys_threads s) ≤ a0)%nat
    ∨ b + Z.of_nat (newFn_calls (sys_pool s) + tally (at_new m) (sys_threads s)) ≤ m;
  inv_owned :
    (idle s + checked_out s ≤ newFn_calls (sys_pool s))%nat;
}.

(** The module stored under a name after a run of [Add] calls, as a
    function of the run: the last module of that name. *)
Definition last_named (n : string) (ms : list RuntimeJSModule)
  : option RuntimeJSModule :=
  last (filter (λ m, Name m = n) ms).

(** ** Sample data *)

(** Two script files with the same base name in different directories, and
    a third module. *)
Definition module_a_x : RuntimeJSModule :=
  {| Name := "x.js"; Path := "a/x.js"; Program := "function InitModule() {}" |}.
Definition module_b_x : RuntimeJSModule :=
  {| Name := "x.js"; Path := "b/x.js"; Program := "var InitModule = 1" |}.
Definition module_m : RuntimeJSModule :=
  {| Name := "m.js"; Path := "m.js"; Program := "function InitModule() {}" |}.

(** Stand-ins for the marshalers, over messages that are plain texts. *)
Global Instance sample_externals : Externals string := {|
  jsonpb_MarshalToString m := (m, None);
  json_Unmarshal js := (Some [("text", AnyString js)], None);
  json_Marshal v := (match v with VString s => s | _ => "{}" end, None);
  jsonpb_Unmarshal js m := (js, None);
|}.

(** Script functions: one returns its payload, one throws, one returns
    nothing, one returns a number, one returns a text, one loops. *)
Definition js_echo : JsFunction := λ args, returns (args !! 3%nat) None.
Definition js_throw : JsFunction := λ _,
  returns None (Some (goja_Exception "Error: boom" "Error: boom at rpc (x.js:1:1)")).
Definition js_nothing : JsFunction := λ _, returns (Some Undefined) None.
Definition js_number : JsFunction := λ _, returns (Some (VNumber 7)) None.
Definition js_text : JsFunction := λ _, returns (Some (VString "changed")) None.
Definition js_loop : JsFunction := λ _, never_returns.

Definition sample_callbacks : Callbacks.t :=
  {| Callbacks.Rpc :=
       <["echo" := Some js_echo]> (<["boom" := Some js_throw]>
         (<["silent" := Some js_nothing]> (<["number" := Some js_number]> ∅)));
     Callbacks.Before :=
       <["rt.drop" := Some js_nothing]> (<["rt.change" := Some js_text]>
         (<["api.getaccount" := Some js_text]> ∅));
     Callbacks.After := <["rt.boom" := Some js_throw]> ∅ |}.

(** A pool with room for two runtimes, its queue and counters given. *)
Definition sample_provider (q : list RuntimeJS) (count : Z) (calls : nat)
  : RuntimeProviderJS :=
  {| poolCh := q; poolCh_cap := 2; maxCount := 2; currentCount := count;
     config_Name := "node1"; config_Environment := VObject [];
     newFn_callbacks := sample_callbacks; newFn_calls := calls |}.

Definition sample_runtime (n : nat) : RuntimeJS :=
  {| vm := n; node := "node1"; nkInst := VObject []; jsLoggerInst := VObject [];
     env := VObject []; callbacks := sample_callbacks |}.

Definition sample_world (q : list RuntimeJS) (count : Z) (calls : nat)
  : World string :=
  {| provider := sample_provider q count calls;
     messages := {[ 1%positive := "hello" ]};
     logged := [] |}.

(** A cache with one module, and the states of a run of three goroutines
    on the pool built for [MinCount = 1], [MaxCount = 2]. *)
Definition sample_cache : RuntimeJSModuleCache := add_all [module_m].

Definition sample_run_end : Sys :=
  {| sys_pool := sample_provider [] 3 2;
     sys_threads := [pc_holding (sample_runtime 0); pc_holding (sample_runtime 1); pc_wait] |}.

(** ** Reading script objects, and the context of the initializer *)

(** [obj.Get(key)]: the value stored under a key, if any. *)
Fixpoint object_Get (key : string) (fields : list (string * Value)) : option Value :=
  match fields with
  | [] => None
  | (k, v) :: rest => if decide (k = key) then Some v else object_Get key rest
  end.

(** The field of a script value that is an object. *)
Definition field (key : string) (v : Value) : option Value :=
  match v with
  | VObject fields => object_Get key fields
  | _ => None
  end.


Definition NewRuntimeJsInitContext (node : string) (env : gmap string string) : Value :=
  let ctxObj := [] in
  let ctxObj := object_Set __RUNTIME_JAVASCRIPT_CTX_NODE (VString node) ctxObj in
  let ctxObj := object_Set __RUNTIME_JAVASCRIPT_CTX_ENV (ToValue (vars_any env)) ctxObj in
  VObject ctxObj.

(** ** Callers that keep what they take *)

(** [n] calls of [Get] in a row by callers that release nothing, each with
    a context that never fires: the runtimes handed out, or [None] as soon
    as a call does not return one. *)
Fixpoint checkout `{!Externals Message} (n : nat) (w : World Message)
  : World Message * option (list RuntimeJS) :=
  match n with
  | O => (w, Some [])
  | S n' =>
      match Get ready_recv (ctx_pending None) w with
      | (w1, Ret (inl r)) =>
          match checkout n' w1 with
          | (w2, Some rs) => (w2, Some (r :: rs))
          | (w2, None) => (w2, None)
          end
      | (w1, _) => (w1, None)
      end
  end.

(** ** Who owns which runtime *)

(** The runtime a goroutine holds, by the number of its [goja] runtime. *)
Definition pc_vms (pc : Pc) : list nat :=
  match pc with
  | pc_holding r => [vm r]
  | _ => []
  end.

Definition held_vms (ths : list Pc) : list nat := ths ≫= pc_vms.

(** The runtimes in the system: the idle ones, then the checked-out ones. *)
Definition owned_vms (s : Sys) : list nat :=
  (vm <$> poolCh (sys_pool s)) ++ held_vms (sys_threads s).

(** Every runtime is in one place only, and was made by [newFn]. *)
Definition ownership_inv (s : Sys) : Prop :=
  NoDup (owned_vms s) ∧ Forall (λ n, (n < newFn_calls (sys_pool s))%nat) (owned_vms s).

(** The counter between its initial value and the limit plus the goroutines
    that may still increment it. *)
Definition counter_inv (c0 m : Z) (T : nat) (s : Sys) : Prop :=
  maxCount (sys_pool s) = m
  ∧ length (sys_threads s) = T
  ∧ c0 ≤ currentCount (sys_pool s)
  ∧ currentCount (sys_pool s) + Z.of_nat (tally at_inc (sys_threads s))
      ≤ Z.max c0 (m + Z.of_nat T - 1).

(** ** The functions registered for typed-request Before hooks *)

Section Registered.
Context {Message : Type} `{!Externals Message}.

(** The closure that [NewRuntimeProviderJS] registers for a Before hook of
    an operation with a request body (one per operation, all of this
    shape): [in] is the pointer to the request.  The type assertion on the
    result panics when the result is not a message. *)
Definition beforeReqFunction (sel : Ready) (ctx : Context) (id : string)
    (userID username : string) (vars : option (gmap string string))
    (expiry : Z) (clientIP clientPort : string) (in_ : positive)
  : M Message (option positive * option error * Code) :=
  let! '(result, err, code) :=
    BeforeReq sel ctx id userID username vars expiry clientIP clientPort
      (iface_message in_) in
  match result, err with
  | iface_nil, _ | _, Some _ => ret (None, err, code)
  | iface_message p, None => ret (Some p, None, codes_OK)
  | iface_other, None => panic "interface conversion"
  end.

(** The closure registered for the Before hook of [getaccount], which has
    no request body. *)
Definition beforeGetAccountFunction (sel : Ready) (ctx : Context) (id : string)
    (userID username : string) (vars : option (gmap string string))
    (expiry : Z) (clientIP clientPort : string)
  : M Message (option error * Code) :=
  let! '(_, err, code) :=
    BeforeReq sel ctx id userID username vars expiry clientIP clientPort iface_nil in
  match err with
  | Some err => ret (Some err, code)
  | None => ret (None, codes_OK)
  end.
End Registered.

(** ** Loading and evaluating the modules *)

(** What loading uses of the host: [path/filepath], [strings], [io/ioutil]
    and the compiler of the script engine ([goja.Compile] of a name and a
    source text; the program is kept as a text). *)
Class Host := {
  filepath_Ext : string → string;
  filepath_Base : string → string;
  strings_ToLower : string → string;
  ioutil_ReadFile : string → string + error;
  goja_Compile : string → string → string + error;
}.

(** The loop of [cacheJavascriptModules], from the cache built so far: the
    paths it hands to [ioutil.ReadFile], in the order of the calls, the log
    it writes, and the cache, or the error of the first file that cannot be
    read or compiled. *)
Fixpoint cache_paths `{Host} (paths : list string) (moduleCache : RuntimeJSModuleCache)
  : list string * list LogEntry * (RuntimeJSModuleCache + error) :=
  match paths with
  | [] => ([], [], inl moduleCache)
  | path :: paths =>
      if decide (strings_ToLower (filepath_Ext path) ≠ ".js")
      then cache_paths paths moduleCache
      else
        match ioutil_ReadFile path with
        | inr err =>
            ([path], [mkLog level_Error "Could not read Javascript module"], inr err)
        | inl content =>
            let modName := filepath_Base path in
            match goja_Compile modName content with
            | inr err =>
                ([path], [mkLog level_Error "Could not compile Javascript module"],
                 inr err)
            | inl prg =>
                let '(reads, logs, res) :=
                  cache_paths paths
                    (Add moduleCache {| Name := modName; Path := path; Program := prg |}) in
                (path :: reads, logs, res)
            end
        end
  end.

(** [cacheJavascriptModules]: what it logs and returns, and the files it
    reads. *)
Definition cacheJavascriptModules `{Host} (rootPath : string) (paths : list string)
  : list LogEntry * (RuntimeJSModuleCache + error) :=
  let '(_, logs, res) := cache_paths paths empty_cache in (logs, res).

Definition cacheJavascriptModules_reads `{Host} (rootPath : string)
    (paths : list string) : list string :=
  (cache_paths paths empty_cache).1.1.

(** The paths that [cacheJavascriptModules] looks at, and the module it
    makes of one of them. *)
Definition js_paths `{Host} (paths : list string) : list string :=
  filter (λ path, strings_ToLower (filepath_Ext path) = ".js") paths.

Definition load_module `{Host} (path : string) : RuntimeJSModule + error :=
  match ioutil_ReadFile path with
  | inr err => inr err
  | inl content =>
      match goja_Compile (filepath_Base path) content with
      | inr err => inr err
      | inl prg => inl {| Name := filepath_Base path; Path := path; Program := prg |}
      end
  end.

(** The objects that [evalRuntimeModules] constructs in its runtime. *)
Inductive Constructor := ctor_initializer | ctor_logger | ctor_nakama.

(** The script engine as [evalRuntimeModules] uses it, over the states of
    one [goja] runtime: [goja.New], [r.New] of a constructor, [r.RunProgram],
    the global [InitModule] when it is a function (it runs in the runtime
    and may call the registrar), and the callbacks the registrar has
    recorded.  A program and [InitModule] are scripts: a run yields the
    state it leaves and its error, or [None] when it never returns. *)
Class Engine (VM : Type) := {
  goja_New : VM;
  runtime_New : Constructor → VM → VM * (Value + goja_error);
  RunProgram : string → VM → option (VM * option goja_error);
  InitModule : VM → option (list Value → VM → option (VM * option goja_error));
  initializer_Callbacks : VM → Callbacks.t;
  INIT_MODULE_FN_NAME : string;
}.

(** The loop of [evalRuntimeModules] over the module names. *)
Fixpoint eval_modules `{Engine VM} (names : list string)
    (modules : gmap string RuntimeJSModule) (ctx jsLoggerInst nkInst initializerInst : Value)
    (r : VM) : Res (list LogEntry * (Callbacks.t + (goja_error + error))) :=
  match names with
  | [] => Ret ([], inl (initializer_Callbacks r))
  | modName :: names =>
      match modules !! modName with
      | None => Panic "invalid memory address or nil pointer dereference"
      | Some m =>
          match RunProgram (Program m) r with
          | None => Blocked
          | Some (_, Some err) => Ret ([], inr (inl err))
          | Some (r, None) =>
              match InitModule r with
              | None =>
                  Ret ([mkLog level_Error "InitModule function not found in module."],
                       inr (inr (errors_New (INIT_MODULE_FN_NAME +:+ " function not found."))))
              | Some initModFn =>
                  match initModFn [ctx; jsLoggerInst; nkInst; initializerInst] r with
                  | None => Blocked
                  | Some (_, Some (goja_Exception _ st)) =>
                      Ret ([], inr (inr (errors_New st)))
                  | Some (_, Some err) => Ret ([], inr (inl err))
                  | Some (r, None) =>
                      eval_modules names modules ctx jsLoggerInst nkInst initializerInst r
                  end
              end
          end
      end
  end.

(** [evalRuntimeModules]; [rp] is [None] for the nil provider.  [name] and
    [environment] are [config.GetName()] and the environment of the
    configuration. *)
Definition evalRuntimeModules `{Engine VM} (rp : option RuntimeProviderJS)
    (modCache : RuntimeJSModuleCache) (name : string) (environment : gmap string string)
  : Res (list LogEntry * (Callbacks.t + (goja_error + error))) :=
  let r := goja_New in
  match rp with
  | None => Panic "invalid memory address or nil pointer dereference"
  | Some _ =>
      match runtime_New ctor_initializer r with
      | (_, inr err) => Ret ([], inr (inl err))
      | (r, inl initializerInst) =>
          match runtime_New ctor_logger r with
          | (_, inr err) => Ret ([], inr (inl err))
          | (r, inl jsLoggerInst) =>
              match runtime_New ctor_nakama r with
              | (_, inr err) => Ret ([], inr (inl err))
              | (r, inl nkInst) =>
                  eval_modules (Names modCache) (Modules modCache)
                    (NewRuntimeJsInitContext name environment)
                    jsLoggerInst nkInst initializerInst r
              end
          end
      end
  end.

(** [CheckRuntimeProviderJavascript]: the error it returns, nil for none. *)
Definition CheckRuntimeProviderJavascript `{Host} `{Engine VM} (config_Path name : string)
    (environment : gmap string string) (paths : list string)
  : Res (list LogEntry * option (goja_error + error)) :=
  match cacheJavascriptModules config_Path paths with
  | (logs, inr err) => Ret (logs, Some (inr err))
  | (logs, inl modCache) =>
      match evalRuntimeModules None modCache name environment with
      | Ret (logs', inr err) => Ret (logs ++ logs', Some err)
      | Ret (logs', inl _) => Ret (logs ++ logs', None)
      | Panic msg => Panic msg
      | Blocked => Blocked
      end
  end.

(** ** More sample data *)

(** A host with four files: two modules, one text file, and one script
    that does not compile. *)
Global Instance sample_host : Host := {|
  filepath_Ext path :=
    if decide (path = "README.md") then ".md"
    else if decide (path = "mods/b.JS") then ".JS" else ".js";
  filepath_Base path :=
    if decide (path = "mods/b.JS") then "b.JS"
    else if decide (path = "mods/a.js") then "a.js" else path;
  strings_ToLower s := if decide (s = ".JS") then ".js" else s;
  ioutil_ReadFile path :=
    if decide (path = "gone.js") then inr (errors_New "open gone.js: no such file")
    else inl (if decide (path = "bad.js") then "(" else "function InitModule() {}");
  goja_Compile modName source :=
    if decide (source = "(") then inr (errors_New "SyntaxError") else inl source;
|}.

Definition module_a : RuntimeJSModule :=
  {| Name := "a.js"; Path := "mods/a.js"; Program := "function InitModule() {}" |}.
Definition module_b : RuntimeJSModule :=
  {| Name := "b.JS"; Path := "mods/b.JS"; Program := "function InitModule() {}" |}.

(** An engine that counts the programs it has run; every program defines
    [InitModule], which registers the sample callbacks; the program
    [while (true) {}] never returns. *)
Global Instance sample_engine : Engine nat := {|
  goja_New := 0%nat;
  runtime_New c r := (r, inl (VObject []));
  RunProgram p r := if decide (p = "while (true) {}") then None else Some (S r, None);
  InitModule r := Some (λ args r, Some (r, None));
  initializer_Callbacks r := sample_callbacks;
  INIT_MODULE_FN_NAME := "InitModule";
|}.

Definition module_spin : RuntimeJSModule :=
  {| Name := "spin.js"; Path := "mods/spin.js"; Program := "while (true) {}" |}.

(** A runtime whose hooks never return, and a world with it. *)
Definition spin_callbacks : Callbacks.t :=
  {| Callbacks.Rpc := <["spin" := Some js_loop]> ∅;
     Callbacks.Before := <["rt.spin" := Some js_loop]> ∅;
     Callbacks.After := ∅ |}.

Definition spin_runtime (n : nat) : RuntimeJS :=
  {| vm := n; node := "node1"; nkInst := VObject []; jsLoggerInst := VObject [];
     env := VObject []; callbacks := spin_callbacks |}.

Definition spin_world (q : list RuntimeJS) : World string :=
  {| provider :=
       {| poolCh := q; poolCh_cap := 2; maxCount := 2; currentCount := 1;
          config_Name := "node1"; config_Environment := VObject [];
          newFn_callbacks := spin_callbacks; newFn_calls := 1 |};
     messages := {[ 1%positive := "hello" ]};
     logged := [] |}.

(** Hooks of typed requests: a Before hook that returns a text, an After
    hook that returns a number; a runtime and a world with them. *)
Definition hook_callbacks : Callbacks.t :=
  {| Callbacks.Rpc := ∅;
     Callbacks.Before := <["api.updateaccount" := Some js_text]> ∅;
     Callbacks.After := <["api.updateaccount" := Some js_number]> ∅ |}.

Definition hook_runtime (n : nat) : RuntimeJS :=
  {| vm := n; node := "node1"; nkInst := VObject []; jsLoggerInst := VObject [];
     env := VObject []; callbacks := hook_callbacks |}.

Definition hook_world (q : list RuntimeJS) : World string :=
  {| provider :=
       {| poolCh := q; poolCh_cap := 2; maxCount := 2; currentCount := 1;
          config_Name := "node1"; config_Environment := VObject [];
          newFn_callbacks := hook_callbacks; newFn_calls := 1 |};
     messages := {[ 1%positive := "request" ]};
     logged := [] |}.

(** * Properties *)

(** ** The order of [sort.Strings] *)

Lemma ascii_compare_N (a b : Ascii.ascii) :
  Ascii.compare a b = N.compare (Ascii.N_of_ascii a) (Ascii.N_of_ascii b).
Proof. reflexivity. Qed.

Lemma string_compare_refl (s : string) : String.compare s s = Eq.
Proof.
  induction s as [|a s IH]; simpl; [done|].
  rewrite ascii_compare_N, N.compare_refl. exact IH.
Qed.

Lemma string_compare_Lt_trans (s1 s2 s3 : string) :
  String.compare s1 s2 = Lt → String.compare s2 s3 = Lt → String.compare s1 s3 = Lt.
Proof.
  revert s2 s3. induction s1 as [|a s1 IH]; intros [|b s2] [|c s3]; simpl; try done.
  rewrite !ascii_compare_N.
  destruct (N.compare_spec (Ascii.N_of_ascii a) (Ascii.N_of_ascii b)) as [Hab|Hab|Hab];
    destruct (N.compare_spec (Ascii.N_of_ascii b) (Ascii.N_of_ascii c)) as [Hbc|Hbc|Hbc];
    try done; intros H12 H23.
  - rewrite Hab, Hbc, N.compare_refl. eauto.
  - rewrite Hab. by apply N.compare_lt_iff in Hbc as ->.
  - rewrite <- Hbc. by apply N.compare_lt_iff in Hab as ->.
  - assert (Ascii.N_of_ascii a < Ascii.N_of_ascii c)%N as Hac by lia.
    by apply N.compare_lt_iff in Hac as ->.
Qed.

Global Instance string_le_trans : Transitive string_le.
Proof.
  intros s1 s2 s3. unfold string_le, String.leb.
  destruct (String.compare s1 s2) eqn:H12; [| |done]; intros _.
  - apply String.compare_eq_iff in H12 as ->. auto.
  - destruct (String.compare s2 s3) eqn:H23; [| |done]; intros _.
    + apply String.compare_eq_iff in H23 as <-. by rewrite H12.
    + by rewrite (string_compare_Lt_trans _ _ _ H12 H23).
Qed.

Global Instance string_le_antisymm : AntiSymm (=) string_le.
Proof. intros s1 s2. apply String.leb_antisym. Qed.

Global Instance string_le_total : Total string_le.
Proof. intros s1 s2. apply String.leb_total. Qed.

Lemma sort_Strings_sorted (l : list string) : Sorted string_le (sort_Strings l).
Proof. apply (Sorted_merge_sort string_le). Qed.

Lemma sort_Strings_perm (l : list string) : sort_Strings l ≡ₚ l.
Proof. apply (merge_sort_Permutation string_le). Qed.

(** Whatever algorithm [sort.Strings] runs, its result is this list. *)
Lemma sort_Strings_unique (l l' : list string) :
  Sorted string_le l' → l' ≡ₚ l → l' = sort_Strings l.
Proof.
  intros Hs Hp. apply (Sorted_unique string_le); [done|apply sort_Strings_sorted|].
  by rewrite Hp, sort_Strings_perm.
Qed.

Lemma sort_Strings_perm_eq (l l' : list string) :
  l ≡ₚ l' → sort_Strings l = sort_Strings l'.
Proof.
  intros Hp. apply sort_Strings_unique; [apply sort_Strings_sorted|].
  by rewrite sort_Strings_perm.
Qed.

(** ** The module cache *)

Lemma add_all_snoc (ms : list RuntimeJSModule) (m : RuntimeJSModule) :
  add_all (ms ++ [m]) = Add (add_all ms) m.
Proof. unfold add_all. by rewrite foldl_app. Qed.

Lemma add_all_Names_perm (ms : list RuntimeJSModule) :
  Names (add_all ms) ≡ₚ Name <$> ms.
Proof.
  induction ms as [|m ms IH] using rev_ind; [done|].
  rewrite add_all_snoc, fmap_app. simpl.
  by rewrite sort_Strings_perm, IH.
Qed.

Lemma add_all_Names_sorted (ms : list RuntimeJSModule) :
  Sorted string_le (Names (add_all ms)).
Proof.
  destruct ms as [|m ms] using rev_ind; [constructor|].
  rewrite add_all_snoc. apply sort_Strings_sorted.
Qed.

Lemma add_all_Names (ms : list RuntimeJSModule) :
  Names (add_all ms) = sort_Strings (Name <$> ms).
Proof.
  apply sort_Strings_unique; [apply add_all_Names_sorted|apply add_all_Names_perm].
Qed.

Lemma add_all_Modules (ms : list RuntimeJSModule) (n : string) :
  Modules (add_all ms) !! n = last_named n ms.
Proof.
  unfold last_named.
  induction ms as [|m ms IH] using rev_ind; [done|].
  rewrite add_all_snoc, filter_app. simpl.
  destruct (decide (Name m = n)) as [Heq|Hne].
  - rewrite filter_cons_True by done. rewrite <- Heq, lookup_insert_eq.
    by rewrite filter_nil, last_snoc.
  - rewrite lookup_insert_ne by done.
    rewrite filter_cons_False by done. by rewrite filter_nil, app_nil_r.
Qed.

Lemma last_named_NoDup (ms : list RuntimeJSModule) (m : RuntimeJSModule) :
  NoDup (Name <$> ms) → m ∈ ms → last_named (Name m) ms = Some m.
Proof.
  unfold last_named. induction ms as [|m' ms IH] using rev_ind; [by intros _ ?%elem_of_nil|].
  rewrite fmap_app. simpl. intros [Hnd [Hdisj _]]%NoDup_app Hin.
  rewrite filter_app. apply elem_of_app in Hin as [Hin|Hin%list_elem_of_singleton].
  - assert (Name m' ≠ Name m) as Hne.
    { intros Heq. apply (Hdisj (Name m)); [by apply list_elem_of_fmap_2|].
      rewrite Heq. by apply list_elem_of_singleton. }
    rewrite filter_cons_False by done. rewrite filter_nil, app_nil_r. auto.
  - subst m'. rewrite filter_cons_True by done. by rewrite filter_nil, last_snoc.
Qed.

(** C8 (as amended).  After any run of [Add] calls the name list is the
    ascending sorted list of all names added (a name added twice is listed
    twice), the mapping holds under each name the module added last under
    that name, so it holds every added module when the names are pairwise
    distinct, and the name list is the same for every reordering of the
    additions. *)
Theorem Add_sorted_names_last_module_wins (ms ms' : list RuntimeJSModule) :
  ms ≡ₚ ms' →
  Names (add_all ms) = sort_Strings (Name <$> ms)
  ∧ Sorted string_le (Names (add_all ms))
  ∧ Names (add_all ms) ≡ₚ Name <$> ms
  ∧ (∀ n, Modules (add_all ms) !! n = last_named n ms)
  ∧ (NoDup (Name <$> ms) → ∀ m, m ∈ ms → Modules (add_all ms) !! Name m = Some m)
  ∧ Names (add_all ms') = Names (add_all ms).
Proof.
  intros Hp. split_and!.
  - apply add_all_Names.
  - apply add_all_Names_sorted.
  - apply add_all_Names_perm.
  - apply add_all_Modules.
  - intros Hnd m Hin. rewrite add_all_Modules. by apply last_named_NoDup.
  - rewrite !add_all_Names. apply sort_Strings_perm_eq. by rewrite Hp.
Qed.

Lemma Add_sorted_names_last_module_wins_witness :
  [module_m; module_a_x] ≡ₚ [module_a_x; module_m]
  ∧ Names (add_all [module_m; module_a_x]) = ["m.js"; "x.js"]
  ∧ Names (add_all [module_a_x; module_m]) = ["m.js"; "x.js"]
  ∧ Modules (add_all [module_m; module_a_x]) !! "x.js" = Some module_a_x.
Proof.
  assert ([module_m; module_a_x] ≡ₚ [module_a_x; module_m]) as Hp by apply Permutation_swap.
  destruct (Add_sorted_names_last_module_wins _ _ Hp) as (Hn & _ & _ & Hm & _ & Hn').
  split_and!; [done| | |].
  - rewrite Hn. vm_compute. reflexivity.
  - rewrite Hn', Hn. vm_compute. reflexivity.
  - rewrite Hm. vm_compute. reflexivity.
Defined.

(** C8 (as stated) fails: of two modules added under one name the mapping
    keeps the second only. *)
Lemma Add_same_name_overwrites :
  ¬ (∀ ms : list RuntimeJSModule,
       Names (add_all ms) = sort_Strings (Name <$> ms)
       ∧ ∀ m, m ∈ ms → Modules (add_all ms) !! Name m = Some m).
Proof.
  intros H. destruct (H [module_a_x; module_b_x]) as [_ Hm].
  specialize (Hm module_a_x (list_elem_of_here _ _)).
  rewrite add_all_Modules in Hm. vm_compute in Hm. discriminate Hm.
Qed.

(** ** Callback lookup *)

(** C9.  The reserved modes resolve to nil for every key and instance; the
    modes RPC, Before and After yield the entry of their table, nil when the
    key is absent. *)
Theorem GetCallback_by_mode (r : RuntimeJS) (key : string) :
  GetCallback r RuntimeExecutionModeMatchmaker key = None
  ∧ GetCallback r RuntimeExecutionModeTournamentEnd key = None
  ∧ GetCallback r RuntimeExecutionModeTournamentReset key = None
  ∧ GetCallback r RuntimeExecutionModeLeaderboardReset key = None
  ∧ GetCallback r RuntimeExecutionModeRPC key
      = default None (Callbacks.Rpc (callbacks r) !! key)
  ∧ GetCallback r RuntimeExecutionModeBefore key
      = default None (Callbacks.Before (callbacks r) !! key)
  ∧ GetCallback r RuntimeExecutionModeAfter key
      = default None (Callbacks.After (callbacks r) !! key).
Proof.
  unfold GetCallback, map_index. split_and!; try reflexivity;
    by destruct (_ !! key).
Qed.

Example GetCallback_sample :
  GetCallback (sample_runtime 0) RuntimeExecutionModeRPC "echo" = Some js_echo
  ∧ GetCallback (sample_runtime 0) RuntimeExecutionModeRPC "rt.drop" = None
  ∧ GetCallback (sample_runtime 0) RuntimeExecutionModeBefore "rt.drop" = Some js_nothing.
Proof. vm_compute. done. Qed.

(** ** The pool, one call at a time *)

Section PoolCalls.
Context {Message : Type} `{!Externals Message}.
Implicit Types (w : World Message) (r : RuntimeJS).

Lemma with_provider_same w : with_provider (provider w) w = w.
Proof. by destruct w. Qed.

(** C7.  [Put] always returns.  Below capacity the runtime is appended to
    the idle queue; at capacity it is dropped, a warning is logged, and
    the pool is exactly as before.  The allocation counter, the limit and
    the number of runtimes constructed are never touched. *)
Theorem Put_enqueues_or_discards w r :
  ∃ w',
    Put r w = (w', Ret tt)
    ∧ (Z.of_nat (length (poolCh (provider w))) < poolCh_cap (provider w) →
         w' = with_provider (with_poolCh (poolCh (provider w) ++ [r]) (provider w)) w)
    ∧ (poolCh_cap (provider w) ≤ Z.of_nat (length (poolCh (provider w))) →
         provider w' = provider w
         ∧ messages w' = messages w
         ∧ logged w' = logged w
             ++ [mkLog level_Warn "Runtime pool full, discarding Lua runtime"])
    ∧ currentCount (provider w') = currentCount (provider w)
    ∧ maxCount (provider w') = maxCount (provider w)
    ∧ poolCh_cap (provider w') = poolCh_cap (provider w)
    ∧ newFn_calls (provider w') = newFn_calls (provider w).
Proof.
  unfold Put, chan_send, logger_Warn. case_decide as Hlen.
  - eexists. split; [done|]. split_and!; try done; lia.
  - eexists. split; [done|]. split_and!; try done; lia.
Qed.

(** C6.  A call of [Get] whose context is already done never reaches the
    allocation: the counter and the number of constructed runtimes stay
    as they are.  The call either takes the runtime at the head of the
    idle queue, or it returns the error of the context and leaves the
    whole state untouched. *)
Theorem Get_done_context_takes_no_slot (sel : Ready) (err : error) w w'
    (res : Res (RuntimeJS + error)) :
  Get sel (ctx_done err) w = (w', res) →
  currentCount (provider w') = currentCount (provider w)
  ∧ newFn_calls (provider w') = newFn_calls (provider w)
  ∧ ((∃ r, res = Ret (inl r) ∧ poolCh (provider w) = r :: poolCh (provider w'))
     ∨ (res = Ret (inr err) ∧ w' = w)).
Proof.
  unfold Get, select_ready, chan_recv.
  destruct (poolCh (provider w)) as [|r q] eqn:Hq.
  - intros [= <- <-]. rewrite with_provider_same. eauto.
  - destruct sel; intros [= <- <-].
    + rewrite with_provider_same. eauto.
    + simpl. split_and!; [done..|]. left. eauto.
Qed.
End PoolCalls.

Lemma Put_enqueues_or_discards_witness :
  (∃ w', Put (sample_runtime 2) (sample_world [sample_runtime 0; sample_runtime 1] 2 2)
           = (w', Ret tt)
         ∧ poolCh (provider w') = [sample_runtime 0; sample_runtime 1]
         ∧ currentCount (provider w') = 2
         ∧ length (logged w') = 1%nat)
  ∧ (∃ w', Put (sample_runtime 1) (sample_world [sample_runtime 0] 2 2) = (w', Ret tt)
         ∧ poolCh (provider w') = [sample_runtime 0; sample_runtime 1]).
Proof.
  split.
  - destruct (Put_enqueues_or_discards
                (sample_world [sample_runtime 0; sample_runtime 1] 2 2) (sample_runtime 2))
      as (w' & Hput & _ & Hfull & Hc & _).
    exists w'. split; [exact Hput|].
    destruct Hfull as (Hp & _ & Hl); [simpl; lia|].
    rewrite Hp, Hl. done.
  - destruct (Put_enqueues_or_discards (sample_world [sample_runtime 0] 2 2) (sample_runtime 1))
      as (w' & Hput & Hroom & _).
    exists w'. split; [exact Hput|]. rewrite Hroom; [done|simpl; lia].
Defined.

Lemma Get_done_context_takes_no_slot_witness :
  let w := sample_world [] 2 2 in
  Get ready_done (ctx_done context_Canceled) w = (w, Ret (inr context_Canceled))
  ∧ currentCount (provider w) = currentCount (provider w)
  ∧ newFn_calls (provider w) = newFn_calls (provider w)
  ∧ ((∃ r, Ret (inr context_Canceled) = Ret (inl r)
           ∧ poolCh (provider w) = r :: poolCh (provider w))
     ∨ (Ret (inr context_Canceled) = Ret (inr context_Canceled) :> Res (RuntimeJS + error)
        ∧ w = w)).
Proof.
  intros w. split; [reflexivity|].
  apply (Get_done_context_takes_no_slot ready_done context_Canceled w w).
  reflexivity.
Defined.

(** ** The invocation bridge and the hook dispatchers *)

(** Case analysis on the next [match] of a computation. *)
Ltac next_case :=
  match goal with
  | H : context [match ?x with _ => _ end] |- _ => destruct x eqn:?
  | |- context [match ?x with _ => _ end] => destruct x eqn:?
  end.

Ltac run_cases := repeat (simplify_eq/=; try next_case).

Section Hooks.
Context {Message : Type} `{!Externals Message}.
Implicit Types (w : World Message) (r : RuntimeJS).

Lemma Get_messages sel ctx w w' (res : Res (RuntimeJS + error)) :
  Get sel ctx w = (w', res) → messages w' = messages w ∧ logged w' = logged w.
Proof. unfold Get. intros. by run_cases. Qed.

Lemma Put_spec r w :
  ∃ w', Put r w = (w', Ret tt) ∧ messages w' = messages w.
Proof. unfold Put, logger_Warn. destruct (chan_send _ _); eauto. Qed.

(** What [InvokeFunction] makes of the outcome of the script function. *)
Lemma InvokeFunction_spec r execMode id fn queryParams uid username vars
    sessionExpiry sid clientIP clientPort payloads w :
  ∃ w',
    InvokeFunction r execMode id fn queryParams uid username vars sessionExpiry
      sid clientIP clientPort payloads w
    = (w',
        match fn (invoke_args r execMode queryParams uid username vars
                    sessionExpiry sid clientIP clientPort payloads) with
        | never_returns => Blocked
        | returns _ (Some (goja_Exception err st)) =>
            Ret (None, Some (newJsExceptionError JsErrorException err st),
                 codes_Internal)
        | returns _ (Some (goja_other err)) =>
            Ret (None, Some (newJsError JsErrorRuntime err), codes_Internal)
        | returns retVal None =>
            Ret (if nothing retVal then None else retVal, None, codes_OK)
        end)
    ∧ provider w' = provider w ∧ messages w' = messages w.
Proof.
  unfold InvokeFunction.
  destruct (fn _) as [retVal [[err st|err]|]|]; [by eexists..| |by eexists].
  destruct (nothing retVal); by eexists.
Qed.

(** C4.  A Before hook that completes without error.  Once [Get] has
    handed out a runtime, the hook is registered and the envelope has been
    marshaled to a map, let the script function return [retVal] without
    raising.  If [retVal] is nothing (nil, undefined or null), [BeforeRt]
    returns the nil envelope and the nil error, and the envelope passed in
    is as it was.  If it is a value that [json.Marshal] serializes to a
    text which the unmarshaler accepts, [BeforeRt] returns the pointer it
    was given and no error, and the message behind that pointer is what
    unmarshaling the text into the original envelope gives; no other
    message has changed.  In both cases the runtime has been put back. *)
Theorem BeforeRt_drops_or_overwrites sel ctx id userID username vars expiry
    sessionID clientIP clientPort envelope w w1 r jsFn msg envelopeJSON
    envelopeMap (retVal : option Value) :
  Get sel ctx w = (w1, Ret (inl r)) →
  GetCallback r RuntimeExecutionModeBefore id = Some jsFn →
  messages w !! envelope = Some msg →
  jsonpb_MarshalToString msg = (envelopeJSON, None) →
  json_Unmarshal envelopeJSON = (envelopeMap, None) →
  jsFn (invoke_args r RuntimeExecutionModeBefore None userID username vars
          expiry sessionID clientIP clientPort [map_any envelopeMap])
    = returns retVal None →
  (nothing retVal = true →
   ∃ w',
     BeforeRt sel ctx id userID username vars expiry sessionID clientIP
       clientPort envelope w = (w', Ret (None, None))
     ∧ messages w' = messages w
     ∧ provider w' = provider (Put r w1).1)
  ∧ (∀ result resultJSON msg',
       retVal = Some result →
       nothing retVal = false →
       json_Marshal result = (resultJSON, None) →
       jsonpb_Unmarshal resultJSON msg = (msg', None) →
       ∃ w',
         BeforeRt sel ctx id userID username vars expiry sessionID clientIP
           clientPort envelope w = (w', Ret (Some envelope, None))
         ∧ messages w' = <[envelope := msg']> (messages w)
         ∧ provider w' = provider (Put r w1).1).
Proof.
  intros HG Hcb Hmsg Hmar Hun Hfn.
  destruct (Get_messages _ _ _ _ _ HG) as [Hm1 _].
  destruct (Put_spec r w1) as (w2 & HP & Hm2).
  split.
  - intros Hn. unfold BeforeRt, bind. rewrite HG, Hcb.
    unfold MarshalToString. rewrite Hm1, Hmsg, Hmar, Hun.
    unfold InvokeFunction. rewrite Hfn, Hn. unfold ret at 1. rewrite HP.
    eexists. split; [done|]. simpl. split; [congruence|done].
  - intros result resultJSON msg' -> Hn Hjm Hju.
    unfold BeforeRt, bind. rewrite HG, Hcb.
    unfold MarshalToString. rewrite Hm1, Hmsg, Hmar, Hun.
    unfold InvokeFunction. rewrite Hfn, Hn. unfold ret at 1. rewrite HP.
    rewrite Hjm. unfold load. rewrite Hm2, Hm1, Hmsg, Hju.
    eexists. split; [done|]. simpl. split; [congruence|done].
Qed.

(** The other direction: when [BeforeRt] returns without an error, the
    hook ran and raised nothing, and either it returned nothing and
    [BeforeRt] returns the nil envelope, or it returned a value that was
    serialized and unmarshaled into the envelope passed in, whose pointer
    is returned. *)
Lemma BeforeRt_without_error_inv sel ctx id userID username vars expiry
    sessionID clientIP clientPort envelope w w' (out : option positive) :
  BeforeRt sel ctx id userID username vars expiry sessionID clientIP clientPort
    envelope w = (w', Ret (out, None)) →
  ∃ w1 r jsFn msg envelopeJSON envelopeMap retVal,
    Get sel ctx w = (w1, Ret (inl r))
    ∧ GetCallback r RuntimeExecutionModeBefore id = Some jsFn
    ∧ messages w !! envelope = Some msg
    ∧ jsonpb_MarshalToString msg = (envelopeJSON, None)
    ∧ json_Unmarshal envelopeJSON = (envelopeMap, None)
    ∧ jsFn (invoke_args r RuntimeExecutionModeBefore None userID username vars
              expiry sessionID clientIP clientPort [map_any envelopeMap])
      = returns retVal None
    ∧ ((nothing retVal = true ∧ out = None ∧ messages w' = messages w)
       ∨ (∃ result resultJSON msg',
            retVal = Some result
            ∧ nothing retVal = false
            ∧ json_Marshal result = (resultJSON, None)
            ∧ jsonpb_Unmarshal resultJSON msg = (msg', None)
            ∧ out = Some envelope
            ∧ messages w' = <[envelope := msg']> (messages w))).
Proof.
  unfold BeforeRt, bind. intros H.
  destruct (Get sel ctx w) as [w1 [[r|e]| |]] eqn:HG; try done.
  destruct (Get_messages _ _ _ _ _ HG) as [Hm1 _].
  destruct (GetCallback r RuntimeExecutionModeBefore id) as [jsFn|] eqn:Hcb.
  2: { destruct (Put_spec r w1) as (w2 & HP & _). by rewrite HP in H. }
  unfold MarshalToString in H. rewrite Hm1 in H.
  destruct (messages w !! envelope) as [msg|] eqn:Hmsg.
  2: { destruct (Put_spec r w1) as (w2 & HP & _). by rewrite HP in H. }
  destruct (jsonpb_MarshalToString msg) as [envelopeJSON [?|]] eqn:Hmar.
  { destruct (Put_spec r w1) as (w2 & HP & _). by rewrite HP in H. }
  destruct (json_Unmarshal envelopeJSON) as [envelopeMap [?|]] eqn:Hun.
  { destruct (Put_spec r w1) as (w2 & HP & _). by rewrite HP in H. }
  destruct (InvokeFunction_spec r RuntimeExecutionModeBefore id jsFn None userID
              username vars expiry sessionID clientIP clientPort
              [map_any envelopeMap] w1) as (w2 & Hinv & _ & Hm2).
  rewrite Hinv in H. clear Hinv.
  destruct (jsFn _) as [retVal [[??|?]|]|] eqn:Hfn; [..|done];
    destruct (Put_spec r w2) as (w3 & HP & Hm3); rewrite HP in H; try done.
  exists w1, r, jsFn, msg, envelopeJSON, envelopeMap, retVal.
  split_and!; try done.
  destruct (nothing retVal) eqn:Hnothing.
  - left. unfold ret in H. simplify_eq. split_and!; try done. congruence.
  - right. destruct retVal as [result|]; [|done].
    destruct (json_Marshal result) as [resultJSON [?|]] eqn:Hjm; [done|].
    unfold load in H. rewrite Hm3, Hm2, Hm1, Hmsg in H.
    destruct (jsonpb_Unmarshal resultJSON msg) as [msg' [?|]] eqn:Hju; [done|].
    unfold store, ret in H. simplify_eq.
    exists result, resultJSON, msg'. split_and!; try done.
    simpl. congruence.
Qed.

(** C5.  With a nil request, whatever the hook returns without raising,
    [BeforeReq] returns the nil result, no error and [OK], and no message
    is written.  This holds for every marshaler, also for one that would
    fail on the value returned: the value is never marshaled. *)
Theorem BeforeReq_nil_request_no_override sel ctx id userID username vars
    expiry clientIP clientPort w w1 r jsFn (retVal : option Value) :
  Get sel ctx w = (w1, Ret (inl r)) →
  GetCallback r RuntimeExecutionModeBefore id = Some jsFn →
  jsFn (invoke_args r RuntimeExecutionModeBefore None userID username vars
          expiry "" clientIP clientPort [map_any None]) = returns retVal None →
  ∃ w',
    BeforeReq sel ctx id userID username vars expiry clientIP clientPort
      iface_nil w = (w', Ret (iface_nil, None, codes_OK))
    ∧ messages w' = messages w.
Proof.
  intros HG Hcb Hfn. unfold BeforeReq, bind. rewrite HG, Hcb. simpl.
  destruct (Get_messages _ _ _ _ _ HG) as [Hm1 _].
  destruct (InvokeFunction_spec r RuntimeExecutionModeBefore id jsFn None userID
              username vars expiry "" clientIP clientPort [AnyNil] w1)
    as (w2 & Hinv & _ & Hm2).
  change (map_any None) with AnyNil in Hfn. rewrite Hinv, Hfn.
  destruct (Put_spec r w2) as (w3 & HP & Hm3). rewrite HP.
  exists w3. split; [|congruence].
  by destruct (nothing retVal), retVal.
Qed.

(** With a nil request the result is nil on every path, and no message
    is written. *)
Lemma BeforeReq_nil_request_result sel ctx id userID username vars expiry
    clientIP clientPort w w' (out : Iface) (err : option error) (code : Code) :
  BeforeReq sel ctx id userID username vars expiry clientIP clientPort
    iface_nil w = (w', Ret (out, err, code)) →
  out = iface_nil ∧ messages w' = messages w.
Proof.
  unfold BeforeReq, bind. intros H.
  destruct (Get sel ctx w) as [w1 [[r|e]| |]] eqn:HG; try done.
  2: { destruct (Get_messages _ _ _ _ _ HG). unfold ret in H. by simplify_eq. }
  destruct (Get_messages _ _ _ _ _ HG) as [Hm1 _].
  destruct (GetCallback r RuntimeExecutionModeBefore id) as [jsFn|].
  2: { destruct (Put_spec r w1) as (w2 & HP & ?). rewrite HP in H.
       unfold ret in H. simplify_eq. split; [done|congruence]. }
  simpl in H.
  destruct (InvokeFunction_spec r RuntimeExecutionModeBefore id jsFn None userID
              username vars expiry "" clientIP clientPort [AnyNil] w1)
    as (w2 & Hinv & _ & Hm2).
  rewrite Hinv in H.
  destruct (Put_spec r w2) as (w3 & HP & Hm3).
  destruct (jsFn _) as [retVal [[??|?]|]|]; [..|done]; rewrite HP in H;
    unfold logger_Error, ret in H; simpl in H.
  - simplify_eq. split; [done|]. simpl. congruence.
  - simplify_eq. split; [done|]. simpl. congruence.
  - destruct (nothing retVal), retVal; simplify_eq; split; (done || congruence).
Qed.

(** *** The runtime after a dispatch *)

(** An uncaught exception of the script: [InvokeFunction] turns it into
    an error with the internal status. *)
Lemma InvokeFunction_exception r execMode id fn queryParams uid username vars
    sessionExpiry sid clientIP clientPort payloads w retVal err st :
  fn (invoke_args r execMode queryParams uid username vars sessionExpiry sid
        clientIP clientPort payloads) = returns retVal (Some (goja_Exception err st)) →
  ∃ w',
    InvokeFunction r execMode id fn queryParams uid username vars sessionExpiry
      sid clientIP clientPort payloads w
    = (w', Ret (None, Some (newJsExceptionError JsErrorException err st), codes_Internal))
    ∧ provider w' = provider w.
Proof.
  intros Hfn.
  destruct (InvokeFunction_spec r execMode id fn queryParams uid username vars
              sessionExpiry sid clientIP clientPort payloads w) as (w' & Hinv & Hp & _).
  rewrite Hfn in Hinv. eauto.
Qed.

(** The pool part of the state is only written by [Get] and [Put]. *)
Lemma Put_provider r w :
  ∃ w', Put r w = (w', Ret tt)
        ∧ provider w' = default (provider w) (chan_send (provider w) r).
Proof. unfold Put, logger_Warn. destruct (chan_send _ _); eauto. Qed.

(** C2 on the RPC path.  Once [Get] has handed out a runtime and the
    callback is registered, [Rpc] ends with the pool exactly as [Get] left
    it: on no outcome of the call is the runtime put back.  An uncaught
    exception of the script is reported with the internal status. *)
Theorem Rpc_never_puts_runtime_back sel ctx id queryParams userID username
    vars expiry sessionID clientIP clientPort payload w w1 r jsFn :
  Get sel ctx w = (w1, Ret (inl r)) →
  GetCallback r RuntimeExecutionModeRPC id = Some jsFn →
  ∃ w' res,
    Rpc sel ctx id queryParams userID username vars expiry sessionID clientIP
      clientPort payload w = (w', res)
    ∧ provider w' = provider w1
    ∧ (∀ retVal err st,
         jsFn (invoke_args r RuntimeExecutionModeRPC queryParams userID username
                 vars expiry sessionID clientIP clientPort [AnyString payload])
           = returns retVal (Some (goja_Exception err st)) →
         res = Ret ("", Some (newJsExceptionError JsErrorException err st),
                    codes_Internal)).
Proof.
  intros HG Hcb. unfold Rpc, bind. rewrite HG, Hcb.
  destruct (InvokeFunction_spec r RuntimeExecutionModeRPC id jsFn queryParams
              userID username vars expiry sessionID clientIP clientPort
              [AnyString payload] w1) as (w2 & Hinv & Hp2 & _).
  rewrite Hinv.
  destruct (jsFn _) as [retVal [[??|?]|]|]; simpl.
  - do 2 eexists. split_and!; [done..|]. by intros ??? [= _ <- <-].
  - do 2 eexists. split_and!; [done..|]. done.
  - destruct (nothing retVal) eqn:Hn; [by do 2 eexists|].
    destruct retVal as [v|]; [|done].
    destruct (assert_string (Export v)) as [s [|]];
      do 2 eexists; split_and!; done.
  - by do 2 eexists.
Qed.

(** The other four dispatchers put the runtime back on every path on
    which they return: the pool they leave is the pool of [Get] after
    [Put]. *)
Ltac put_back :=
  intros HG H;
  unfold bind, InvokeFunction, message_map, Put, bind, MarshalToString, load, store,
    logger_Error, logger_Warn, ret in H;
  rewrite HG in H; run_cases;
  repeat match goal with E : chan_send _ _ = _ |- _ => simpl in E; rewrite E end;
  done.

Lemma BeforeRt_puts_runtime_back sel ctx id userID username vars expiry
    sessionID clientIP clientPort envelope w w1 r w' out :
  Get sel ctx w = (w1, Ret (inl r)) →
  BeforeRt sel ctx id userID username vars expiry sessionID clientIP clientPort
    envelope w = (w', Ret out) →
  provider w' = default (provider w1) (chan_send (provider w1) r).
Proof. unfold BeforeRt. put_back. Qed.

Lemma AfterRt_puts_runtime_back sel ctx id userID username vars expiry
    sessionID clientIP clientPort envelope w w1 r w' out :
  Get sel ctx w = (w1, Ret (inl r)) →
  AfterRt sel ctx id userID username vars expiry sessionID clientIP clientPort
    envelope w = (w', Ret out) →
  provider w' = default (provider w1) (chan_send (provider w1) r).
Proof. unfold AfterRt. put_back. Qed.

Lemma BeforeReq_puts_runtime_back sel ctx id userID username vars expiry
    clientIP clientPort req w w1 r w' out :
  Get sel ctx w = (w1, Ret (inl r)) →
  BeforeReq sel ctx id userID username vars expiry clientIP clientPort req w
    = (w', Ret out) →
  provider w' = default (provider w1) (chan_send (provider w1) r).
Proof. unfold BeforeReq. put_back. Qed.

Lemma AfterReq_puts_runtime_back sel ctx id userID username vars expiry
    clientIP clientPort res req w w1 r w' out :
  Get sel ctx w = (w1, Ret (inl r)) →
  AfterReq sel ctx id userID username vars expiry clientIP clientPort res req w
    = (w', Ret out) →
  provider w' = default (provider w1) (chan_send (provider w1) r).
Proof. unfold AfterReq. put_back. Qed.

(** *** RPC results *)

(** An id without a callback in the RPC table: not found. *)
Lemma Rpc_unregistered_not_found sel ctx id queryParams userID username vars
    expiry sessionID clientIP clientPort payload w w1 r :
  Get sel ctx w = (w1, Ret (inl r)) →
  GetCallback r RuntimeExecutionModeRPC id = None →
  ∃ w',
    Rpc sel ctx id queryParams userID username vars expiry sessionID clientIP
      clientPort payload w = (w', Ret ("", Some ErrRuntimeRPCNotFound, codes_NotFound))
    ∧ provider w' = default (provider w1) (chan_send (provider w1) r).
Proof.
  intros HG Hcb. unfold Rpc, bind. rewrite HG, Hcb.
  destruct (Put_provider r w1) as (w2 & -> & Hp). eauto.
Qed.

(** A callback that returns a value other than undefined and null which
    does not export to a string: an error with the internal status. *)
Lemma Rpc_non_string_internal sel ctx id queryParams userID username vars
    expiry sessionID clientIP clientPort payload w w1 r jsFn v :
  Get sel ctx w = (w1, Ret (inl r)) →
  GetCallback r RuntimeExecutionModeRPC id = Some jsFn →
  jsFn (invoke_args r RuntimeExecutionModeRPC queryParams userID username vars
          expiry sessionID clientIP clientPort [AnyString payload]) = returns (Some v) None →
  nothing (Some v) = false →
  (assert_string (Export v)).2 = false →
  ∃ w' msg,
    Rpc sel ctx id queryParams userID username vars expiry sessionID clientIP
      clientPort payload w = (w', Ret ("", Some (errors_New msg), codes_Internal)).
Proof.
  intros HG Hcb Hfn Hn Hs. unfold Rpc, bind. rewrite HG, Hcb.
  destruct (InvokeFunction_spec r RuntimeExecutionModeRPC id jsFn queryParams
              userID username vars expiry sessionID clientIP clientPort
              [AnyString payload] w1) as (w2 & Hinv & _).
  rewrite Hinv, Hfn, Hn.
  destruct (assert_string (Export v)) as [s ok]. simpl in Hs. subst ok.
  by do 2 eexists.
Qed.

(** C3, where it fails: a callback that runs without error and
    returns nothing (the nil value, undefined or null).  [InvokeFunction]
    hands nil to [Rpc], which calls [Export] on it: the call panics, and
    no result is returned at all. *)
Theorem Rpc_nothing_returned_panics sel ctx id queryParams userID username
    vars expiry sessionID clientIP clientPort payload w w1 r jsFn retVal :
  Get sel ctx w = (w1, Ret (inl r)) →
  GetCallback r RuntimeExecutionModeRPC id = Some jsFn →
  jsFn (invoke_args r RuntimeExecutionModeRPC queryParams userID username vars
          expiry sessionID clientIP clientPort [AnyString payload]) = returns retVal None →
  nothing retVal = true →
  Rpc sel ctx id queryParams userID username vars expiry sessionID clientIP
    clientPort payload w
  = (w1, Panic "invalid memory address or nil pointer dereference").
Proof.
  intros HG Hcb Hfn Hn. unfold Rpc, bind. rewrite HG, Hcb.
  unfold InvokeFunction. by rewrite Hfn, Hn.
Qed.
End Hooks.

(** ** The dispatchers on sample data *)

Lemma BeforeRt_drops_or_overwrites_witness :
  let w := sample_world [sample_runtime 0] 1 1 in
  (∃ w', BeforeRt ready_recv (ctx_pending None) "rt.drop" "u1" "ann" None 0
           "s1" "10.0.0.1" "7350" 1%positive w = (w', Ret (None, None))
         ∧ messages w' = messages w
         ∧ provider w' = provider (Put (sample_runtime 0) (sample_world [] 1 1)).1)
  ∧ (∃ w', BeforeRt ready_recv (ctx_pending None) "rt.change" "u1" "ann" None 0
             "s1" "10.0.0.1" "7350" 1%positive w = (w', Ret (Some 1%positive, None))
           ∧ messages w' = <[1%positive := "changed"]> (messages w)
           ∧ provider w' = provider (Put (sample_runtime 0) (sample_world [] 1 1)).1).
Proof.
  intros w. split.
  - apply (BeforeRt_drops_or_overwrites ready_recv (ctx_pending None) "rt.drop"
             "u1" "ann" None 0 "s1" "10.0.0.1" "7350" 1%positive w
             (sample_world [] 1 1) (sample_runtime 0) js_nothing "hello" "hello"
             (Some [("text", AnyString "hello")]) (Some Undefined)).
    + vm_compute. reflexivity.
    + vm_compute. reflexivity.
    + vm_compute. reflexivity.
    + vm_compute. reflexivity.
    + vm_compute. reflexivity.
    + vm_compute. reflexivity.
    + vm_compute. reflexivity.
  - refine (proj2 (BeforeRt_drops_or_overwrites ready_recv (ctx_pending None)
                     "rt.change" "u1" "ann" None 0 "s1" "10.0.0.1" "7350" 1%positive w
                     (sample_world [] 1 1) (sample_runtime 0) js_text "hello" "hello"
                     (Some [("text", AnyString "hello")]) (Some (VString "changed"))
                     _ _ _ _ _ _)
                   (VString "changed") "changed" "changed" _ _ _ _).
    + vm_compute. reflexivity.
    + vm_compute. reflexivity.
    + vm_compute. reflexivity.
    + vm_compute. reflexivity.
    + vm_compute. reflexivity.
    + vm_compute. reflexivity.
    + reflexivity.
    + vm_compute. reflexivity.
    + vm_compute. reflexivity.
    + vm_compute. reflexivity.
Defined.

Lemma BeforeReq_nil_request_no_override_witness :
  let w := sample_world [sample_runtime 0] 1 1 in
  ∃ w',
    BeforeReq ready_recv (ctx_pending None) "api.getaccount" "u1" "ann" None 0
      "10.0.0.1" "7350" iface_nil w = (w', Ret (iface_nil, None, codes_OK))
    ∧ messages w' = messages w.
Proof.
  intros w.
  apply (BeforeReq_nil_request_no_override ready_recv (ctx_pending None)
           "api.getaccount" "u1" "ann" None 0 "10.0.0.1" "7350" w
           (sample_world [] 1 1) (sample_runtime 0) js_text (Some (VString "changed")));
    vm_compute; reflexivity.
Defined.

(** The runtime taken from the queue is gone after an RPC that throws. *)
Lemma Rpc_never_puts_runtime_back_witness :
  let w := sample_world [sample_runtime 0] 1 1 in
  ∃ w' res,
    Rpc ready_recv (ctx_pending None) "boom" None "u1" "ann" None 0 "s1"
      "10.0.0.1" "7350" "{}" w = (w', res)
    ∧ provider w' = sample_provider [] 1 1
    ∧ res = Ret ("", Some (newJsExceptionError JsErrorException "Error: boom"
                             "Error: boom at rpc (x.js:1:1)"), codes_Internal).
Proof.
  intros w.
  destruct (Rpc_never_puts_runtime_back ready_recv (ctx_pending None) "boom" None
              "u1" "ann" None 0 "s1" "10.0.0.1" "7350" "{}" w
              (sample_world [] 1 1) (sample_runtime 0) js_throw)
    as (w' & res & HR & Hp & Hex); [vm_compute; reflexivity..|].
  exists w', res. split_and!; [exact HR|exact Hp|].
  by apply (Hex None).
Defined.

(** The same after an RPC that succeeds, and a second call then finds the
    queue empty and the counter at its limit: it can only wait. *)
Example Rpc_success_leaks_runtime :
  let w := sample_world [sample_runtime 0] 2 2 in
  ∃ w',
    Rpc ready_recv (ctx_pending None) "echo" None "u1" "ann" None 0 "s1"
      "10.0.0.1" "7350" "ping" w = (w', Ret ("ping", None, codes_OK))
    ∧ poolCh (provider w') = []
    ∧ (Get ready_recv (ctx_pending None) w').2 = Blocked.
Proof.
  intros w. eexists. split_and!.
  - vm_compute. reflexivity.
  - vm_compute. reflexivity.
  - vm_compute. reflexivity.
Qed.

(** A realtime hook that throws: the runtime is back in the queue. *)
Example AfterRt_exception_returns_runtime :
  let w := sample_world [sample_runtime 0] 2 2 in
  ∃ w' err,
    AfterRt ready_recv (ctx_pending None) "rt.boom" "u1" "ann" None 0 "s1"
      "10.0.0.1" "7350" 1%positive w = (w', Ret (Some err))
    ∧ poolCh (provider w') = [sample_runtime 0].
Proof.
  intros w. do 2 eexists. split.
  - vm_compute. reflexivity.
  - vm_compute. reflexivity.
Qed.

Lemma Rpc_nothing_returned_panics_witness :
  let w := sample_world [sample_runtime 0] 1 1 in
  Rpc ready_recv (ctx_pending None) "silent" None "u1" "ann" None 0 "s1"
    "10.0.0.1" "7350" "{}" w
  = (sample_world [] 1 1, Panic "invalid memory address or nil pointer dereference").
Proof.
  intros w.
  apply (Rpc_nothing_returned_panics ready_recv (ctx_pending None) "silent" None
           "u1" "ann" None 0 "s1" "10.0.0.1" "7350" "{}" w (sample_world [] 1 1)
           (sample_runtime 0) js_nothing (Some Undefined));
    vm_compute; reflexivity.
Defined.

Example Rpc_sample_results :
  let w := sample_world [sample_runtime 0] 1 1 in
  (Rpc ready_recv (ctx_pending None) "missing" None "u1" "ann" None 0 "s1"
     "10.0.0.1" "7350" "{}" w).2 = Ret ("", Some ErrRuntimeRPCNotFound, codes_NotFound)
  ∧ (Rpc ready_recv (ctx_pending None) "number" None "u1" "ann" None 0 "s1"
       "10.0.0.1" "7350" "{}" w).2
    = Ret ("", Some (errors_New "Runtime function returned invalid data - only allowed one return value of type string."), codes_Internal).
Proof.
  intros w. split.
  - vm_compute. reflexivity.
  - vm_compute. reflexivity.
Qed.

(** ** Concurrent callers: what the counter guarantees *)

Lemma tally_insert (f : Pc → nat) (ths : list Pc) (i : nat) (pc pc' : Pc) :
  ths !! i = Some pc →
  (tally f (<[i := pc']> ths) + f pc = tally f ths + f pc')%nat.
Proof.
  revert i. induction ths as [|x ths IH]; intros [|i] Hi; simplify_eq/=; [lia|].
  specialize (IH _ Hi). lia.
Qed.

Lemma tally_below_length (f : Pc → nat) (ths : list Pc) (i : nat) (pc : Pc) :
  (∀ pc, f pc ≤ 1)%nat → ths !! i = Some pc → f pc = 0%nat →
  (tally f ths + 1 ≤ length ths)%nat.
Proof.
  intros Hf. revert i. induction ths as [|x ths IH]; intros [|i] Hi H0; simplify_eq/=.
  - rewrite H0. clear IH H0. induction ths as [|y ths IH]; simpl; [lia|].
    specialize (Hf y). lia.
  - specialize (IH _ Hi H0). specialize (Hf x). lia.
Qed.

Lemma tally_replicate (f : Pc → nat) (n : nat) (pc : Pc) :
  f pc = 0%nat → tally f (replicate n pc) = 0%nat.
Proof. intros H0. induction n as [|n IH]; simpl; [done|]. by rewrite H0, IH. Qed.

Lemma at_inc_le_1 (pc : Pc) : (at_inc pc ≤ 1)%nat.
Proof. destruct pc; simpl; lia. Qed.

Lemma uint32_small (z : Z) : 0 ≤ z < 2 ^ 32 → uint32 z = z.
Proof. intros. unfold uint32. by apply Z.mod_small. Qed.

(** At its largest value the counter wraps around: this is why the
    statements below ask for [MaxCount] plus the number of goroutines to
    stay below [2^32]. *)
Example counter_Inc_wraps :
  (counter_Inc (sample_provider [] (2 ^ 32 - 1) 0)).2 = 0.
Proof. reflexivity. Qed.

Lemma pool_inv_step (m : Z) (T : nat) (b : Z) (a0 : nat) (s s' : Sys) :
  m + Z.of_nat T ≤ 2 ^ 32 →
  pool_inv m T b a0 s → sys_step s s' → pool_inv m T b a0 s'.
Proof.
  intros HT [Hmax Hlen Hc Hinc Hbase Halloc Hown] Hstep.
  unfold idle, checked_out in *.
  destruct Hstep as [rp ths i pc rp' pc' Hi Hth|rp ths i j r Hi Hj]; simpl in *.
  - pose proof (tally_insert at_inc ths i pc pc' Hi) as Ep.
    pose proof (tally_insert (at_new m) ths i pc pc' Hi) as Eq.
    pose proof (tally_insert at_holding ths i pc pc' Hi) as Eh.
    pose proof (tally_below_length at_inc ths i pc at_inc_le_1 Hi) as Hlt.
    destruct Hth; simpl in *.
    all: try match goal with H : _ = pc_outside ∨ _ = pc_wait |- _ => destruct H; subst; simpl in * end.
    all: try match goal with H : chan_recv _ = Some _ |- _ =>
           unfold chan_recv in H; destruct (poolCh rp) eqn:?; simplify_eq/= end.
    all: try match goal with H : counter_Inc _ = _ |- _ =>
           unfold counter_Inc in H; simplify_eq/= end.
    all: try match goal with H : newFn _ = _ |- _ =>
           unfold newFn in H; simplify_eq/= end.
    all: try match goal with H : chan_send _ _ = Some _ |- _ =>
           unfold chan_send in H; case_decide; simplify_eq/= end.
    all: unfold counter_Load in *.
    all: try (rewrite uint32_small in * by lia).
    all: try case_decide.
    all: split; unfold idle, checked_out; simpl;
      rewrite ?length_insert, ?length_app; simpl; lia.
  - assert (i ≠ j) as Hij by (intros ->; congruence).
    assert (<[i := pc_outside]> ths !! j = Some pc_wait) as Hj'
      by (by rewrite list_lookup_insert_ne).
    pose proof (tally_insert at_inc ths i _ pc_outside Hi) as Ep.
    pose proof (tally_insert (at_new m) ths i _ pc_outside Hi) as Eq.
    pose proof (tally_insert at_holding ths i _ pc_outside Hi) as Eh.
    pose proof (tally_insert at_inc _ j _ (pc_holding r) Hj') as Ep'.
    pose proof (tally_insert (at_new m) _ j _ (pc_holding r) Hj') as Eq'.
    pose proof (tally_insert at_holding _ j _ (pc_holding r) Hj') as Eh'.
    simpl in *.
    split; unfold idle, checked_out; simpl; rewrite ?length_insert; lia.
Qed.

(** Every reachable state satisfies the invariant. *)
Lemma pool_inv_reachable (m : Z) (T : nat) (b : Z) (a0 : nat) (s s' : Sys) :
  m + Z.of_nat T ≤ 2 ^ 32 →
  pool_inv m T b a0 s → rtc sys_step s s' → pool_inv m T b a0 s'.
Proof. intros HT Hinv Hsteps. induction Hsteps; eauto using pool_inv_step. Qed.

(** What the invariant gives: a bound on the runtimes ever constructed. *)
Lemma pool_inv_bound (m : Z) (T : nat) (b : Z) (a0 : nat) (s : Sys) :
  pool_inv m T b a0 s →
  Z.of_nat (newFn_calls (sys_pool s)) ≤ Z.max (Z.of_nat a0) (m - b)
  ∧ (idle s + checked_out s ≤ newFn_calls (sys_pool s))%nat.
Proof. intros [Hmax Hlen Hc Hinc Hbase Halloc Hown]. split; [lia|done]. Qed.

(** A step constructs a runtime only from the program point after [Inc],
    and only when the value [Inc] returned is within the limit. *)
Lemma sys_step_newFn (s s' : Sys) :
  sys_step s s' →
  newFn_calls (sys_pool s') ≠ newFn_calls (sys_pool s) →
  ∃ i v, sys_threads s !! i = Some (pc_recheck v)
         ∧ v ≤ maxCount (sys_pool s)
         ∧ newFn_calls (sys_pool s') = S (newFn_calls (sys_pool s)).
Proof.
  intros [rp ths i pc rp' pc' Hi Hth|rp ths i j r Hi Hj] Hne; simpl in *; [|done].
  destruct Hth; simpl in *; try done.
  - unfold chan_recv in *. destruct (poolCh rp); by simplify_eq/=.
  - unfold counter_Inc in *. by simplify_eq/=.
  - unfold newFn in *. simplify_eq/=. eauto.
  - unfold chan_send in *. case_decide; by simplify_eq/=.
Qed.

(** The value a goroutine holds after [Inc] is the value of the counter
    right after its increment. *)
Lemma sys_step_inc (rp rp' : RuntimeProviderJS) (v : Z) :
  thread_step rp pc_inc rp' (pc_recheck v) →
  v = uint32 (currentCount rp + 1) ∧ currentCount rp' = v.
Proof. inversion 1; subst. unfold counter_Inc in *. by simplify_eq/=. Qed.

(** *** One call of [Get], step by step *)

(** [Get] allocates only through its [default] case, and there only when
    the value that [Inc] returned is within the limit. *)
Lemma Get_default_within_limit (rp rp' : RuntimeProviderJS) (r : RuntimeJS) :
  Get_default rp = (rp', Some r) →
  currentCount rp < maxCount rp
  ∧ currentCount rp' = uint32 (currentCount rp + 1)
  ∧ currentCount rp' ≤ maxCount rp
  ∧ newFn_calls rp' = S (newFn_calls rp)
  ∧ vm r = newFn_calls rp.
Proof.
  unfold Get_default, counter_Load, counter_Inc, newFn. simpl.
  repeat case_decide; intros [= <- <-]; simpl. split_and!; (done || lia).
Qed.

Lemma Get_default_break (rp rp' : RuntimeProviderJS) :
  Get_default rp = (rp', None) →
  newFn_calls rp' = newFn_calls rp ∧ poolCh rp' = poolCh rp.
Proof.
  unfold Get_default, counter_Load, counter_Inc, newFn. simpl.
  repeat case_decide; by intros [= <-].
Qed.

Section GetSteps.
Context {Message : Type} `{!Externals Message}.

(** The steps of one goroutine, running alone, retrace a call of [Get]:
    whatever the call returns, the goroutine can take steps to the
    matching program point, with the pool in the state the call leaves. *)
Lemma Get_retraced (sel : Ready) (ctx : Context) (w w' : World Message)
    (res : Res (RuntimeJS + error)) :
  Get sel ctx w = (w', res) →
  ∃ pc,
    rtc sys_step (mkSys (provider w) [pc_outside]) (mkSys (provider w') [pc])
    ∧ match res with
      | Ret (inl r) => pc = pc_holding r
      | Ret (inr _) => pc = pc_outside
      | Blocked => pc = pc_wait
      | Panic _ => False
      end.
Proof.
  unfold Get.
  assert (∀ rp pc rp' out,
            pc = pc_outside ∨ pc = pc_wait →
            select_ready sel ctx rp = Some (rp', out) →
            thread_step rp pc rp' (match out with inl r => pc_holding r | inr _ => pc_outside end))
    as Hsel.
  { intros rp pc rp' out Hpc. unfold select_ready.
    destruct ctx, (chan_recv rp) as [[r q]|] eqn:Hq; try destruct sel;
      intros [= <- <-]; by (apply step_done || eapply step_recv). }
  assert (∀ rp pc rp' pc', thread_step rp pc rp' pc' →
            sys_step (mkSys rp [pc]) (mkSys rp' [pc'])) as Hone.
  { intros rp pc rp' pc' Hst. by apply (sys_thread rp [pc] 0 pc rp' pc'). }
  destruct (select_ready sel ctx (provider w)) as [[rp' out]|] eqn:Hs1.
  { intros [= <- <-]. eexists. split.
    - apply rtc_once, Hone. eapply Hsel; [by left|done].
    - by destruct out. }
  assert (chan_recv (provider w) = None) as Hempty.
  { unfold select_ready in Hs1. destruct ctx, (chan_recv (provider w)) as [[??]|], sel; done. }
  assert (rtc sys_step (mkSys (provider w) [pc_outside])
                       (mkSys (provider w) [pc_default])) as Hd.
  { apply rtc_once, Hone. by apply step_default. }
  unfold Get_default.
  case_decide as Hfull.
  - (* no further allocation allowed *)
    assert (rtc sys_step (mkSys (provider w) [pc_outside])
                         (mkSys (provider w) [pc_wait])) as Hw.
    { eapply rtc_r; [exact Hd|]. apply Hone. by apply step_load_full. }
    rewrite Hs1. destruct ctx as [?|[err|]]; intros [= <- <-]; simpl.
    + by exists pc_wait.
    + exists pc_outside. split; [|done].
      eapply rtc_r; [exact Hw|]. apply Hone. apply step_done. by right.
    + by exists pc_wait.
  - destruct (counter_Inc (provider w)) as [rp1 v] eqn:Hinc.
    assert (maxCount rp1 = maxCount (provider w)) as Hmax
      by (unfold counter_Inc in Hinc; by simplify_eq/=).
    assert (poolCh rp1 = poolCh (provider w)) as Hpool
      by (unfold counter_Inc in Hinc; by simplify_eq/=).
    assert (rtc sys_step (mkSys (provider w) [pc_outside])
                         (mkSys rp1 [pc_recheck v])) as Hr.
    { eapply rtc_r; [eapply rtc_r; [exact Hd|]|].
      - apply Hone. apply step_load_below. unfold counter_Load in *. lia.
      - apply Hone. by apply step_inc. }
    case_decide as Hover.
    + assert (rtc sys_step (mkSys (provider w) [pc_outside])
                           (mkSys rp1 [pc_wait])) as Hw.
      { eapply rtc_r; [exact Hr|]. apply Hone. by apply step_recheck_over. }
      assert (select_ready sel ctx rp1 = None) as ->.
      { unfold select_ready, chan_recv in *. rewrite Hpool.
        destruct ctx, (poolCh (provider w)), sel; done. }
      destruct ctx as [?|[err|]]; intros [= <- <-]; simpl.
      * by exists pc_wait.
      * exists pc_outside. split; [|done].
        eapply rtc_r; [exact Hw|]. apply Hone. apply step_done. by right.
      * by exists pc_wait.
    + destruct (newFn rp1) as [rp2 r] eqn:Hnew. intros [= <- <-]. simpl.
      exists (pc_holding r). split; [|done].
      eapply rtc_r; [exact Hr|]. apply Hone. eapply step_new; [lia|done].
Qed.
End GetSteps.

(** *** The pool right after construction *)

Lemma warm_up_spec (n : nat) (rp rp' : RuntimeProviderJS) :
  warm_up n rp = Ret rp' →
  newFn_calls rp' = (newFn_calls rp + n)%nat
  ∧ length (poolCh rp') = (length (poolCh rp) + n)%nat
  ∧ maxCount rp' = maxCount rp
  ∧ currentCount rp' = currentCount rp
  ∧ poolCh_cap rp' = poolCh_cap rp.
Proof.
  revert rp. induction n as [|n IH]; intros rp; simpl.
  - intros [= ->]. split_and!; (done || lia).
  - unfold chan_send. simpl. case_decide; [|done].
    intros (H1 & H2 & H3 & H4 & H5)%IH. simpl in *.
    rewrite length_app in H2. simpl in H2. split_and!; (done || lia).
Qed.

Lemma NewRuntimeProviderJS_inv (MinCount MaxCount : Z) (name : string)
    (environment : Value) (modCache : RuntimeJSModuleCache)
    (cbs : Callbacks.t) (rp : RuntimeProviderJS) (T : nat) :
  0 ≤ MinCount < 2 ^ 32 →
  MaxCount + Z.of_nat T < 2 ^ 32 →
  NewRuntimeProviderJS MinCount MaxCount name environment modCache cbs = Ret rp →
  maxCount rp = MaxCount
  ∧ currentCount rp = MinCount
  ∧ length (poolCh rp) = newFn_calls rp
  ∧ newFn_calls rp = (if decide (0 < length (Names modCache))%nat
                      then Z.to_nat MinCount else 0%nat)
  ∧ pool_inv MaxCount T (MinCount - Z.of_nat (newFn_calls rp)) (newFn_calls rp)
      (initial_sys rp T).
Proof.
  intros HMin HMax. unfold NewRuntimeProviderJS.
  case_decide as Hneg; [done|].
  assert (uint32 MaxCount = MaxCount) as EMax by (apply uint32_small; lia).
  assert (uint32 MinCount = MinCount) as EMin by (apply uint32_small; lia).
  rewrite EMax, EMin.
  assert (∀ rp, maxCount rp = MaxCount → currentCount rp = MinCount →
                length (poolCh rp) = newFn_calls rp →
                pool_inv MaxCount T (MinCount - Z.of_nat (newFn_calls rp))
                  (newFn_calls rp) (initial_sys rp T)) as Hinit.
  { intros rp0 H1 H2 H3. unfold initial_sys.
    split; unfold idle, checked_out; simpl;
      rewrite ?length_replicate, ?tally_replicate by done; lia. }
  case_decide as Hmods.
  - intros (H1 & H2 & H3 & H4 & _)%warm_up_spec. simpl in *.
    split_and!; [done..|lia| |apply Hinit; (done || lia)]. lia.
  - intros [= <-]. split_and!; [done..|]. by apply Hinit.
Qed.

(** C1.  Take the pool as [NewRuntimeProviderJS] sets it up from a
    configuration with [0 ≤ MinCount ≤ MaxCount], and any number of
    goroutines that call [Get] and [Put] in any interleaving, such that the
    32-bit counter cannot wrap around ([MaxCount] plus the number of
    goroutines stays below [2^32]).  In every state that can be reached, the
    number of runtimes constructed is at most [maxCount]; the idle and the
    checked-out runtimes together are at most the runtimes constructed; and
    a step constructs a runtime only for a goroutine whose [Inc] returned a
    value within [maxCount]. *)
Theorem Get_never_over_allocates (MinCount MaxCount : Z) (name : string)
    (environment : Value) (modCache : RuntimeJSModuleCache)
    (cbs : Callbacks.t) (rp : RuntimeProviderJS) (T : nat) (s : Sys) :
  0 ≤ MinCount ≤ MaxCount →
  MaxCount + Z.of_nat T < 2 ^ 32 →
  NewRuntimeProviderJS MinCount MaxCount name environment modCache cbs = Ret rp →
  rtc sys_step (initial_sys rp T) s →
  Z.of_nat (newFn_calls (sys_pool s)) ≤ maxCount (sys_pool s)
  ∧ (idle s + checked_out s ≤ newFn_calls (sys_pool s))%nat
  ∧ (∀ s', sys_step s s' →
           newFn_calls (sys_pool s') ≠ newFn_calls (sys_pool s) →
           ∃ i v, sys_threads s !! i = Some (pc_recheck v)
                  ∧ v ≤ maxCount (sys_pool s)
                  ∧ newFn_calls (sys_pool s') = S (newFn_calls (sys_pool s))).
Proof.
  intros HMin HMax Hnew Hsteps.
  assert (0 ≤ MinCount < 2 ^ 32) as HMin' by lia.
  assert (MaxCount + Z.of_nat T ≤ 2 ^ 32) as HT by lia.
  destruct (NewRuntimeProviderJS_inv _ _ _ _ _ _ _ T HMin' HMax Hnew)
    as (_ & _ & _ & Hcalls & Hinv).
  pose proof (pool_inv_reachable _ _ _ _ _ _ HT Hinv Hsteps) as Hinv'.
  destruct (pool_inv_bound _ _ _ _ _ Hinv') as [Hbound Hown].
  split_and!; [|done|apply sys_step_newFn].
  rewrite (inv_max _ _ _ _ _ Hinv'). case_decide; lia.
Qed.

(** C10.  Without modules [NewRuntimeProviderJS] sets the counter to
    [MinCount] and leaves the idle queue empty, with no runtime constructed;
    from there on, in every reachable state, at most [MaxCount - MinCount]
    runtimes have been constructed (none when [MinCount] is not below
    [MaxCount]). *)
Theorem no_modules_min_count_is_lost (MinCount MaxCount : Z) (name : string)
    (environment : Value) (modCache : RuntimeJSModuleCache)
    (cbs : Callbacks.t) (T : nat) :
  Names modCache = [] →
  0 ≤ MinCount < 2 ^ 32 →
  0 ≤ MaxCount →
  MaxCount + Z.of_nat T < 2 ^ 32 →
  ∃ rp,
    NewRuntimeProviderJS MinCount MaxCount name environment modCache cbs = Ret rp
    ∧ currentCount rp = MinCount
    ∧ poolCh rp = []
    ∧ newFn_calls rp = 0%nat
    ∧ ∀ s, rtc sys_step (initial_sys rp T) s →
           Z.of_nat (newFn_calls (sys_pool s)) ≤ Z.max 0 (MaxCount - MinCount).
Proof.
  intros Hmods HMin HMax0 HMax.
  destruct (NewRuntimeProviderJS MinCount MaxCount name environment modCache cbs)
    as [rp| |] eqn:Hnew.
  2,3: unfold NewRuntimeProviderJS in Hnew; rewrite Hmods in Hnew;
       repeat case_decide; simpl in *; (done || lia).
  destruct (NewRuntimeProviderJS_inv _ _ _ _ _ _ _ T HMin HMax Hnew)
    as (_ & Hcount & Hq & Hcalls & Hinv).
  rewrite Hmods in Hcalls. simpl in Hcalls. rewrite Hcalls in *.
  exists rp. split_and!; [done..|by apply nil_length_inv|done|].
  intros s Hsteps.
  assert (MaxCount + Z.of_nat T ≤ 2 ^ 32) as HT by lia.
  pose proof (pool_inv_reachable _ _ _ _ _ _ HT Hinv Hsteps) as Hinv'.
  destruct (pool_inv_bound _ _ _ _ _ Hinv') as [Hbound _]. lia.
Qed.

(** *** A run on sample data *)

Ltac thread_does i rule :=
  eapply rtc_l; [eapply (sys_thread _ _ i); [reflexivity|rule]|simpl].

Example NewRuntimeProviderJS_sample :
  NewRuntimeProviderJS 1 2 "node1" (VObject []) sample_cache sample_callbacks
  = Ret (sample_provider [sample_runtime 0] 1 1).
Proof. vm_compute. reflexivity. Qed.

(** Three goroutines call [Get]: the first takes the idle runtime, the other
    two both see the counter below the limit and both increment it.  One of
    them constructs the second runtime, the other one has to wait; the
    counter ends above [maxCount]. *)
Lemma sample_run : rtc sys_step (initial_sys (sample_provider [sample_runtime 0] 1 1) 3) sample_run_end.
Proof.
  unfold initial_sys. simpl.
  thread_does 0%nat ltac:(eapply step_recv; [by left|reflexivity]).
  thread_does 1%nat ltac:(by apply step_default).
  thread_does 2%nat ltac:(by apply step_default).
  thread_does 1%nat ltac:(by apply step_load_below).
  thread_does 2%nat ltac:(by apply step_load_below).
  thread_does 1%nat ltac:(eapply step_inc; reflexivity).
  thread_does 2%nat ltac:(eapply step_inc; reflexivity).
  thread_does 1%nat ltac:(eapply step_new; [done|reflexivity]).
  thread_does 2%nat ltac:(by apply step_recheck_over).
  apply rtc_refl.
Qed.

Lemma Get_never_over_allocates_witness :
  Z.of_nat (newFn_calls (sys_pool sample_run_end)) ≤ maxCount (sys_pool sample_run_end)
  ∧ maxCount (sys_pool sample_run_end) < currentCount (sys_pool sample_run_end)
  ∧ (idle sample_run_end + checked_out sample_run_end
       ≤ newFn_calls (sys_pool sample_run_end))%nat.
Proof.
  destruct (Get_never_over_allocates 1 2 "node1" (VObject []) sample_cache
              sample_callbacks (sample_provider [sample_runtime 0] 1 1) 3 sample_run_end)
    as (Hle & Hown & _).
  - lia.
  - vm_compute. reflexivity.
  - vm_compute. reflexivity.
  - exact sample_run.
  - split_and!; [exact Hle|vm_compute; reflexivity|exact Hown].
Defined.

Lemma no_modules_min_count_is_lost_witness :
  ∃ rp,
    NewRuntimeProviderJS 1 2 "node1" (VObject []) empty_cache sample_callbacks = Ret rp
    ∧ currentCount rp = 1
    ∧ poolCh rp = []
    ∧ newFn_calls rp = 0%nat
    ∧ ∀ s, rtc sys_step (initial_sys rp 3) s →
           Z.of_nat (newFn_calls (sys_pool s)) ≤ Z.max 0 (2 - 1).
Proof.
  apply (no_modules_min_count_is_lost 1 2 "node1" (VObject []) empty_cache
           sample_callbacks 3).
  - reflexivity.
  - lia.
  - lia.
  - vm_compute. reflexivity.
Defined.

(** Without modules and with [MinCount = 1], [MaxCount = 2]: the first
    [Get] constructs a runtime, the second one finds the counter at the
    limit and waits for good, although one runtime only exists. *)
Example no_modules_second_Get_blocks :
  let w := sample_world [] 1 0 in
  ∃ w1,
    Get ready_recv (ctx_pending None) w = (w1, Ret (inl (sample_runtime 0)))
    ∧ newFn_calls (provider w1) = 1%nat
    ∧ (Get ready_recv (ctx_pending None) w1).2 = Blocked.
Proof.
  intros w. eexists. split_and!.
  - vm_compute. reflexivity.
  - vm_compute. reflexivity.
  - vm_compute. reflexivity.
Qed.

(** * Further properties *)

(** ** The invocation context *)

Lemma object_Get_Set (k key : string) (v : Value) (fields : list (string * Value)) :
  object_Get k (object_Set key v fields)
  = if decide (key = k) then Some v else object_Get k fields.
Proof.
  induction fields as [|[k' w] rest IH]; simpl.
  - done.
  - destruct (decide (k' = key)) as [->|Hne]; simpl.
    + by destruct (decide (key = k)).
    + rewrite IH. destruct (decide (k' = k)) as [->|]; [|done].
      by rewrite decide_False by congruence.
Qed.

Lemma object_Get_Set_if (c : bool) (k key : string) (v : Value)
    (fields : list (string * Value)) :
  object_Get k (Set_if c key v fields)
  = if c then (if decide (key = k) then Some v else object_Get k fields)
    else object_Get k fields.
Proof. destruct c; simpl; [apply object_Get_Set|done]. Qed.

(** [Set] on a key that the object has replaces the value in place, and on
    a new key it appends: the keys of an object stay in the order in which
    they were first set. *)
Lemma object_Set_keys (key : string) (v : Value) (fields : list (string * Value)) :
  (object_Set key v fields).*1
  = if decide (key ∈ fields.*1) then fields.*1 else fields.*1 ++ [key].
Proof.
  induction fields as [|[k w] rest IH]; [done|].
  cbn [object_Set]. rewrite fmap_cons. cbn [fst].
  destruct (decide (k = key)) as [->|Hne]; rewrite fmap_cons; cbn [fst].
  - destruct (decide (key ∈ key :: rest.*1)) as [|Hnin]; [done|].
    destruct Hnin. apply list_elem_of_here.
  - rewrite IH. destruct (decide (key ∈ rest.*1)) as [Hin|Hnin].
    + destruct (decide (key ∈ k :: rest.*1)) as [|Hnin]; [done|].
      destruct Hnin. by apply list_elem_of_further.
    + destruct (decide (key ∈ k :: rest.*1)) as [Hin|]; [|done].
      apply elem_of_cons in Hin as [?|?]; congruence.
Qed.

(** [float64(i)] is [i] itself up to [2^53] in size, and beyond it is a
    multiple of the spacing of the floats around [i] that is at most half
    a spacing away from [i]. *)
Lemma float64_of_int_exact (i : Z) : Z.abs i ≤ 2 ^ 53 → float64_of_int i = i.
Proof.
  intros Hi. unfold float64_of_int.
  destruct (decide (Z.abs i < 2 ^ 53)) as [|Hge]; [done|].
  assert (Z.abs i = 2 ^ 53) as Ha by lia. rewrite Ha.
  change (Z.log2 (2 ^ 53) - 52) with 1.
  change (2 ^ 53 mod 2 ^ 1) with 0. change (2 ^ (1 - 1)) with 1.
  change (2 ^ 53 / 2 ^ 1 * 2 ^ 1) with (2 ^ 53).
  rewrite decide_True by lia. change (2 ^ 53 / 2 ^ 1 * 2 ^ 1) with (2 ^ 53).
  rewrite <- Ha. lia.
Qed.

Lemma float64_of_int_nearest (i : Z) :
  2 ^ 53 ≤ Z.abs i →
  let ulp := 2 ^ (Z.log2 (Z.abs i) - 52) in
  (ulp | float64_of_int i) ∧ 2 * Z.abs (float64_of_int i - i) ≤ ulp.
Proof.
  intros Hi ulp. unfold float64_of_int. rewrite decide_False by lia.
  assert (53 ≤ Z.log2 (Z.abs i)) as Hlog by (by apply (Z.log2_le_pow2 _ 53); lia).
  fold ulp.
  assert (ulp = 2 * 2 ^ (Z.log2 (Z.abs i) - 52 - 1)) as Hulp.
  { unfold ulp. rewrite <- Z.pow_succ_r by lia. f_equal. lia. }
  set (half := 2 ^ (Z.log2 (Z.abs i) - 52 - 1)) in *.
  assert (0 < half) as Hhalf by (apply Z.pow_pos_nonneg; lia).
  pose proof (Z.div_mod (Z.abs i) ulp ltac:(lia)) as Hdm.
  pose proof (Z.mod_pos_bound (Z.abs i) ulp ltac:(lia)) as Hr.
  set (q := Z.abs i / ulp) in *. set (r := Z.abs i mod ulp) in *.
  assert (∀ q', (ulp | Z.sgn i * (q' * ulp))) as Hdiv.
  { intros q'. exists (Z.sgn i * q'). lia. }
  split; [repeat case_decide; try destruct (Z.even q); apply Hdiv|].
  assert (∀ q', Z.abs (Z.sgn i * (q' * ulp) - i) = Z.abs (q' * ulp - Z.abs i)) as Habs.
  { intros q'. destruct (Z.abs_spec i) as [[? Ha]|[? Ha]]; rewrite Ha.
    - rewrite Z.sgn_pos by lia. f_equal. lia.
    - rewrite Z.sgn_neg by lia. lia. }
  repeat case_decide; try destruct (Z.even q); rewrite Habs; nia.
Qed.

Example float64_of_int_sample :
  float64_of_int (2 ^ 53 + 1) = 2 ^ 53
  ∧ float64_of_int (2 ^ 53 + 3) = 2 ^ 53 + 4
  ∧ float64_of_int (2 ^ 63 - 1) = 2 ^ 63
  ∧ float64_of_int (- 2 ^ 53 - 1) = - 2 ^ 53
  ∧ float64_of_int 123456789012345678 = 123456789012345680.
Proof. vm_compute. done. Qed.

Section ContextObject.
Variables (node : string) (env : Value) (mode : RuntimeExecutionMode)
  (queryParams : option (gmap string (list string))) (sessionExpiry : Z)
  (userID username : string) (vars : option (gmap string string))
  (sessionID clientIP clientPort : string).

Local Abbreviation ctxObj :=
  (NewRuntimeJsContext node env mode queryParams sessionExpiry userID username
     vars sessionID clientIP clientPort).

(** X1.  The context of an invocation always carries the node, the
    environment and the execution mode; the mode is stored as a host
    object that wraps the Go value, not as a number.  Each of the other
    eight keys is present exactly when its input is not nil, zero or
    empty.  A string is stored as it is, a map as the object [ToValue]
    makes of it, and the session expiry as a script number: the expiry
    itself up to [2^53] in size, and beyond that the [float64] nearest to
    it. *)
Theorem NewRuntimeJsContext_sparse :
  field "node" ctxObj = Some (VString node)
  ∧ field "env" ctxObj = Some env
  ∧ field "execution_mode" ctxObj = Some (VHostObject mode)
  ∧ field "query_params" ctxObj = (λ q, ToValue (queryParams_any q)) <$> queryParams
  ∧ field "user_session_exp" ctxObj
      = (if decide (sessionExpiry = 0) then None
         else if decide (Z.abs sessionExpiry ≤ 2 ^ 53)
              then Some (VNumber sessionExpiry)
              else Some (VNumber (float64_of_int sessionExpiry)))
  ∧ field "user_id" ctxObj = (if decide (userID = "") then None else Some (VString userID))
  ∧ field "username" ctxObj
      = (if decide (username = "") then None else Some (VString username))
  ∧ field "vars" ctxObj = (λ v, ToValue (vars_any v)) <$> vars
  ∧ field "session_id" ctxObj
      = (if decide (sessionID = "") then None else Some (VString sessionID))
  ∧ field "client_ip" ctxObj
      = (if decide (clientIP = "") then None else Some (VString clientIP))
  ∧ field "client_port" ctxObj
      = (if decide (clientPort = "") then None else Some (VString clientPort)).
Proof.
  assert (intToValue sessionExpiry
          = if decide (Z.abs sessionExpiry ≤ 2 ^ 53) then VNumber sessionExpiry
            else VNumber (float64_of_int sessionExpiry)) as Hexp.
  { unfold intToValue. repeat case_decide; (done || lia). }
  unfold NewRuntimeJsContext, field, nonempty. rewrite Hexp. clear Hexp.
  split_and!.
  all: destruct queryParams, vars; simpl.
  all: rewrite ?object_Get_Set_if, ?object_Get_Set; simpl.
  all: repeat (rewrite decide_False by done); rewrite ?decide_True by done.
  all: rewrite ?object_Get_Set_if, ?object_Get_Set; simpl.
  all: try done.
  all: repeat case_bool_decide; repeat case_decide; try done; try congruence.
Qed.

End ContextObject.

(** ** More on [Get] and [Put], one call at a time *)

Section PoolMore.
Context {Message : Type} `{!Externals Message}.
Implicit Types (w : World Message) (r : RuntimeJS).

(** Reuse before growth: when the idle queue is not empty and the context
    is not done, [Get] hands out the runtime at the head of the queue and
    nothing else changes. *)
Lemma Get_receives_idle (sel : Ready) (later : option error) w r
    (q : list RuntimeJS) :
  poolCh (provider w) = r :: q →
  Get sel (ctx_pending later) w
  = (with_provider (with_poolCh q (provider w)) w, Ret (inl r)).
Proof. intros Hq. unfold Get, select_ready, chan_recv. by rewrite Hq. Qed.

(** With an empty queue, a context that is not done and a counter below the
    limit, [Get] increments the counter and constructs a runtime. *)
Lemma Get_allocates (sel : Ready) (later : option error) w :
  poolCh (provider w) = [] →
  0 ≤ currentCount (provider w) < maxCount (provider w) →
  maxCount (provider w) < 2 ^ 32 →
  Get sel (ctx_pending later) w
  = (with_provider
       (with_newFn_calls (S (newFn_calls (provider w)))
          (with_currentCount (currentCount (provider w) + 1) (provider w))) w,
     Ret (inl {| vm := newFn_calls (provider w);
                 node := config_Name (provider w);
                 nkInst := VObject [];
                 jsLoggerInst := VObject [];
                 env := config_Environment (provider w);
                 callbacks := newFn_callbacks (provider w) |})).
Proof.
  intros Hq Hc Hm.
  unfold Get, select_ready, chan_recv, Get_default, counter_Load, counter_Inc.
  rewrite Hq. simpl. rewrite uint32_small by lia.
  rewrite decide_False by lia. rewrite decide_False by lia. done.
Qed.

(** At the limit: with an empty queue and the counter at or above
    [maxCount], [Get] changes nothing.  It returns the error of the context
    if the signal fires, and otherwise never returns. *)
Lemma Get_waits_at_limit (sel : Ready) (later : option error) w :
  poolCh (provider w) = [] →
  maxCount (provider w) ≤ currentCount (provider w) →
  Get sel (ctx_pending later) w
  = (w, match later with Some err => Ret (inr err) | None => Blocked end).
Proof.
  intros Hq Hc.
  unfold Get, select_ready, chan_recv, Get_default, counter_Load.
  rewrite Hq. rewrite decide_True by done. rewrite Hq, with_provider_same.
  by destruct later.
Qed.

(** X3.  Release, then acquire: after [Put r] on a queue below capacity,
    the next [Get] takes the head of the queue extended by [r], without
    construction or increment.  On an empty queue the caller gets [r]
    itself and the pool is as it was before the two calls. *)
Theorem Put_then_Get_reuses (sel : Ready) (later : option error) w r :
  Z.of_nat (length (poolCh (provider w))) < poolCh_cap (provider w) →
  ∃ w1 w2 r',
    Put r w = (w1, Ret tt)
    ∧ Get sel (ctx_pending later) w1 = (w2, Ret (inl r'))
    ∧ r' :: poolCh (provider w2) = poolCh (provider w) ++ [r]
    ∧ currentCount (provider w2) = currentCount (provider w)
    ∧ newFn_calls (provider w2) = newFn_calls (provider w)
    ∧ logged w2 = logged w
    ∧ (poolCh (provider w) = [] → r' = r ∧ w2 = w).
Proof.
  intros Hroom. unfold Put, chan_send. rewrite decide_True by done.
  destruct (poolCh (provider w) ++ [r]) as [|r' q'] eqn:Hq.
  { by destruct (poolCh (provider w)). }
  eexists _, _, r'. split; [done|]. split.
  { by apply Get_receives_idle. }
  simpl. split_and!; try done.
  intros Hnil. rewrite Hnil in Hq. simplify_eq/=.
  split; [done|]. destruct w as [[] ??]. simpl in *. by subst.
Qed.

(** Callers that keep their runtimes empty the queue first, then make the
    counter reach the limit. *)
Lemma checkout_drains (q : list RuntimeJS) (k : nat) w :
  poolCh (provider w) = q →
  0 ≤ currentCount (provider w) →
  currentCount (provider w) + Z.of_nat k = maxCount (provider w) →
  maxCount (provider w) < 2 ^ 32 →
  ∃ w' rs,
    checkout (length q + k) w = (w', Some rs)
    ∧ vm <$> rs = (vm <$> q) ++ seq (newFn_calls (provider w)) k
    ∧ poolCh (provider w') = []
    ∧ currentCount (provider w') = maxCount (provider w')
    ∧ maxCount (provider w') = maxCount (provider w)
    ∧ newFn_calls (provider w') = (newFn_calls (provider w) + k)%nat.
Proof.
  revert w k. induction q as [|r q IH]; intros w k Hq Hc Hk Hm.
  - revert w Hq Hc Hk Hm. induction k as [|k IHk]; intros w Hq Hc Hk Hm.
    + exists w, []. simpl. split_and!; (done || lia).
    + simpl. rewrite Get_allocates by (done || lia).
      match goal with |- context [checkout k ?w1] =>
        destruct (IHk w1) as (w' & rs & Hco & Hvm & Hq' & Hc' & Hm' & Hn');
          [done|simpl; lia..|]
      end.
      simpl in Hco. rewrite Hco. simpl in *.
      eexists _, _. split; [done|]. rewrite fmap_cons, Hvm.
      split_and!; (done || lia).
  - simpl. rewrite (Get_receives_idle _ _ _ r q) by done.
    edestruct (IH (with_provider (with_poolCh q (provider w)) w) k)
      as (w' & rs & Hco & Hvm & Hq' & Hc' & Hm' & Hn'); [done..|].
    simpl in Hco. rewrite Hco. simpl in *.
    eexists _, _. split; [done|]. rewrite fmap_cons, Hvm.
    split_and!; done.
Qed.

Lemma warm_up_queue (n : nat) (rp rp' : RuntimeProviderJS) :
  warm_up n rp = Ret rp' →
  vm <$> poolCh rp' = (vm <$> poolCh rp) ++ seq (newFn_calls rp) n.
Proof.
  revert rp. induction n as [|n IH]; intros rp; simpl.
  - intros [= ->]. by rewrite app_nil_r.
  - unfold chan_send. simpl. case_decide; [|done].
    intros ->%IH. simpl. rewrite fmap_app. simpl. by rewrite <- app_assoc.
Qed.

(** X4.  The pool of a configuration with modules and
    [0 ≤ MinCount ≤ MaxCount < 2^32] serves exactly [MaxCount] callers that
    release nothing: they get [MaxCount] runtimes, pairwise distinct (the
    first [MinCount] from the queue, in the order of their construction,
    the others new), and one more call of [Get] waits. *)
Theorem checkout_exhausts_pool (MinCount MaxCount : Z) (name : string)
    (environment : Value) (modCache : RuntimeJSModuleCache) (cbs : Callbacks.t)
    (rp : RuntimeProviderJS) w :
  0 ≤ MinCount ≤ MaxCount →
  MaxCount < 2 ^ 32 →
  Names modCache ≠ [] →
  NewRuntimeProviderJS MinCount MaxCount name environment modCache cbs = Ret rp →
  provider w = rp →
  ∃ w' rs,
    checkout (Z.to_nat MaxCount) w = (w', Some rs)
    ∧ vm <$> rs = seq 0 (Z.to_nat MaxCount)
    ∧ newFn_calls (provider w') = Z.to_nat MaxCount
    ∧ Get ready_recv (ctx_pending None) w' = (w', Blocked).
Proof.
  intros HMin HMax Hmods Hnew Hw.
  assert (0 ≤ MinCount < 2 ^ 32) as HMin' by lia.
  assert (MaxCount + Z.of_nat 0 < 2 ^ 32) as HMax' by lia.
  destruct (NewRuntimeProviderJS_inv _ _ _ _ _ _ _ 0 HMin' HMax' Hnew)
    as (Hm & Hc & Hlen & Hcalls & _).
  rewrite decide_True in Hcalls by (destruct (Names modCache); simpl; [done|lia]).
  assert (vm <$> poolCh rp = seq 0 (Z.to_nat MinCount)) as Hq.
  { unfold NewRuntimeProviderJS in Hnew. case_decide; [done|].
    rewrite decide_True in Hnew by (destruct (Names modCache); simpl; [done|lia]).
    by apply warm_up_queue in Hnew. }
  subst rp.
  destruct (checkout_drains (poolCh (provider w)) (Z.to_nat (MaxCount - MinCount)) w)
    as (w' & rs & Hco & Hvm & Hq' & Hc' & Hm' & Hn'); [done|lia..|].
  replace (length (poolCh (provider w)) + Z.to_nat (MaxCount - MinCount))%nat
    with (Z.to_nat MaxCount) in Hco by lia.
  exists w', rs. split_and!; [done| |lia|].
  - rewrite Hvm, Hq, Hcalls. rewrite <- seq_app. f_equal. lia.
  - apply (Get_waits_at_limit ready_recv None); [done|lia].
Qed.
End PoolMore.

(** ** More on concurrent callers *)

Lemma tally_lookup_le (f : Pc → nat) (ths : list Pc) (i : nat) (pc : Pc) :
  ths !! i = Some pc → (f pc ≤ tally f ths)%nat.
Proof.
  revert i. induction ths as [|x ths IH]; intros [|i] Hi; simplify_eq/=; [lia|].
  specialize (IH _ Hi). lia.
Qed.

Lemma sys_step_cap (s s' : Sys) :
  sys_step s s' → poolCh_cap (sys_pool s') = poolCh_cap (sys_pool s).
Proof.
  intros [rp ths i pc rp' pc' Hi Hth|rp ths i j r Hi Hj]; simpl; [|done].
  destruct Hth; try done.
  - unfold chan_recv in *. destruct (poolCh rp); by simplify_eq/=.
  - unfold counter_Inc in *. by simplify_eq/=.
  - unfold newFn in *. by simplify_eq/=.
  - unfold chan_send in *. case_decide; by simplify_eq/=.
Qed.

Lemma rtc_sys_step_cap (s s' : Sys) :
  rtc sys_step s s' → poolCh_cap (sys_pool s') = poolCh_cap (sys_pool s).
Proof.
  induction 1 as [|s1 s2 s3 Hst _ IH]; [done|]. by rewrite IH, (sys_step_cap _ _ Hst).
Qed.

(** The bounds of a reachable state, for the pool of a configuration. *)
Lemma reachable_bounds (MinCount MaxCount : Z) (name : string)
    (environment : Value) (modCache : RuntimeJSModuleCache)
    (cbs : Callbacks.t) (rp : RuntimeProviderJS) (T : nat) (s : Sys) :
  0 ≤ MinCount ≤ MaxCount →
  MaxCount + Z.of_nat T < 2 ^ 32 →
  NewRuntimeProviderJS MinCount MaxCount name environment modCache cbs = Ret rp →
  rtc sys_step (initial_sys rp T) s →
  Z.of_nat (newFn_calls (sys_pool s)) ≤ MaxCount
  ∧ (idle s + checked_out s ≤ newFn_calls (sys_pool s))%nat
  ∧ maxCount (sys_pool s) = MaxCount.
Proof.
  intros HMin HMax Hnew Hsteps.
  assert (0 ≤ MinCount < 2 ^ 32) as HMin' by lia.
  assert (MaxCount + Z.of_nat T ≤ 2 ^ 32) as HT by lia.
  destruct (NewRuntimeProviderJS_inv _ _ _ _ _ _ _ T HMin' HMax Hnew)
    as (_ & _ & _ & Hcalls & Hinv).
  pose proof (pool_inv_reachable _ _ _ _ _ _ HT Hinv Hsteps) as Hinv'.
  destruct (pool_inv_bound _ _ _ _ _ Hinv') as [Hbound Hown].
  split_and!; [|done|apply (inv_max _ _ _ _ _ Hinv')].
  case_decide; lia.
Qed.

(** X5.  The guard in [Put] is never needed: in the pool of a configuration
    with [0 ≤ MinCount ≤ MaxCount] whose counter cannot wrap around, in
    every reachable state, the queue has room for the runtime of every
    goroutine that holds one, so a [Put] enqueues and never discards. *)
Theorem Put_always_finds_room (MinCount MaxCount : Z) (name : string)
    (environment : Value) (modCache : RuntimeJSModuleCache)
    (cbs : Callbacks.t) (rp : RuntimeProviderJS) (T : nat) (s : Sys)
    (i : nat) (r : RuntimeJS) :
  0 ≤ MinCount ≤ MaxCount →
  MaxCount + Z.of_nat T < 2 ^ 32 →
  NewRuntimeProviderJS MinCount MaxCount name environment modCache cbs = Ret rp →
  rtc sys_step (initial_sys rp T) s →
  sys_threads s !! i = Some (pc_holding r) →
  Z.of_nat (length (poolCh (sys_pool s))) < poolCh_cap (sys_pool s)
  ∧ chan_send (sys_pool s) r
    = Some (with_poolCh (poolCh (sys_pool s) ++ [r]) (sys_pool s)).
Proof.
  intros HMin HMax Hnew Hsteps Hi.
  destruct (reachable_bounds MinCount MaxCount name environment
              modCache cbs rp T s HMin HMax Hnew Hsteps) as (Hle & Hown & Hm).
  assert (poolCh_cap (sys_pool s) = MaxCount) as Hcap.
  { rewrite (rtc_sys_step_cap _ _ Hsteps). simpl.
    unfold NewRuntimeProviderJS in Hnew. case_decide; [done|].
    case_decide; [|by simplify_eq/=].
    by destruct (warm_up_spec _ _ _ Hnew) as (_ & _ & _ & _ & ->). }
  pose proof (tally_lookup_le at_holding _ _ _ Hi) as Hheld. simpl in Hheld.
  unfold idle, checked_out in Hown.
  assert (Z.of_nat (length (poolCh (sys_pool s))) < poolCh_cap (sys_pool s)) as Hroom by lia.
  split; [done|]. unfold chan_send. by rewrite decide_True.
Qed.

(** *** Ownership *)

Lemma held_vms_insert (ths : list Pc) (i : nat) (pc pc' : Pc) :
  ths !! i = Some pc →
  held_vms (<[i := pc']> ths) ++ pc_vms pc ≡ₚ pc_vms pc' ++ held_vms ths.
Proof.
  unfold held_vms. revert i. induction ths as [|x ths IH]; intros [|i] Hi; simplify_eq/=.
  - rewrite <- (assoc (++)). f_equiv. apply Permutation_app_comm.
  - specialize (IH _ Hi). rewrite <- (assoc (++)), IH.
    rewrite !(assoc (++)). f_equiv. apply Permutation_app_comm.
Qed.

Lemma held_vms_replicate (T : nat) : held_vms (replicate T pc_outside) = [].
Proof. unfold held_vms. induction T as [|T IH]; simpl; [done|]. exact IH. Qed.

Lemma ownership_init (rp : RuntimeProviderJS) (T : nat) :
  vm <$> poolCh rp = seq 0 (newFn_calls rp) → ownership_inv (initial_sys rp T).
Proof.
  intros Hq. unfold ownership_inv, owned_vms, initial_sys.
  cbn [sys_pool sys_threads]. rewrite held_vms_replicate, app_nil_r, Hq.
  split; [apply NoDup_seq|].
  apply Forall_forall. intros n [_ ?]%elem_of_seq. lia.
Qed.

Lemma ownership_step (s s' : Sys) :
  ownership_inv s → sys_step s s' → ownership_inv s'.
Proof.
  unfold ownership_inv, owned_vms.
  intros Hinv Hstep.
  destruct Hstep as [rp ths i pc rp' pc' Hi Hth|rp ths i j r Hi Hj];
    destruct Hinv as [Hnd Hlt]; simpl in *.
  - pose proof (held_vms_insert ths i pc pc' Hi) as Hperm.
    destruct Hth; simpl in *.
    all: try match goal with H : _ = pc_outside ∨ _ = pc_wait |- _ => destruct H; subst; simpl in * end.
    all: try match goal with H : chan_recv _ = Some _ |- _ =>
           unfold chan_recv in H; destruct (poolCh rp) eqn:?; simplify_eq/= end.
    all: try match goal with H : counter_Inc _ = _ |- _ =>
           unfold counter_Inc in H; simplify_eq/= end.
    all: try match goal with H : newFn _ = _ |- _ =>
           unfold newFn in H; simplify_eq/= end.
    all: try match goal with H : chan_send _ _ = Some _ |- _ =>
           unfold chan_send in H; case_decide; simplify_eq/= end.
    all: rewrite ?app_nil_r in Hperm; simpl in Hperm.
    (* taken from the queue (twice), constructed, put back, discarded, kept *)
    all: try (by rewrite Hperm).
    + by rewrite Hperm, <- Permutation_middle.
    + by rewrite Hperm, <- Permutation_middle.
    + rewrite Hperm, <- Permutation_middle. split.
      * apply NoDup_cons. split; [|done].
        intros Hin. eapply Forall_forall in Hlt; [|exact Hin]. lia.
      * apply Forall_cons. split; [lia|].
        eapply Forall_impl; [exact Hlt|]. simpl. lia.
    + rewrite fmap_app, <- (assoc (++)). simpl.
      change (vm r :: held_vms (<[i:=pc_outside]> ths))
        with ([vm r] ++ held_vms (<[i:=pc_outside]> ths)).
      by rewrite (Permutation_app_comm [vm r]), Hperm.
    + rewrite <- Hperm, (assoc (++)) in Hnd, Hlt.
      apply NoDup_app in Hnd as (Hnd & _ & _). apply Forall_app in Hlt as [Hlt _]. done.
    + rewrite <- Hperm, (assoc (++)) in Hnd, Hlt.
      apply NoDup_app in Hnd as (Hnd & _ & _). apply Forall_app in Hlt as [Hlt _]. done.
  - assert (i ≠ j) as Hij by (intros ->; congruence).
    assert (<[i := pc_outside]> ths !! j = Some pc_wait) as Hj'
      by (by rewrite list_lookup_insert_ne).
    pose proof (held_vms_insert ths i _ pc_outside Hi) as Hp1.
    pose proof (held_vms_insert _ j _ (pc_holding r) Hj') as Hp2.
    simpl in *. rewrite app_nil_r in Hp2. rewrite Hp2.
    rewrite <- Hp1, <- Permutation_cons_append in Hnd, Hlt. done.
Qed.

Lemma NewRuntimeProviderJS_queue (MinCount MaxCount : Z) (name : string)
    (environment : Value) (modCache : RuntimeJSModuleCache)
    (cbs : Callbacks.t) (rp : RuntimeProviderJS) :
  NewRuntimeProviderJS MinCount MaxCount name environment modCache cbs = Ret rp →
  vm <$> poolCh rp = seq 0 (newFn_calls rp).
Proof.
  unfold NewRuntimeProviderJS. case_decide; [done|]. case_decide.
  - intros Hw. pose proof (warm_up_queue _ _ _ Hw) as Hq.
    destruct (warm_up_spec _ _ _ Hw) as (Hc & _). simpl in *. by rewrite Hq, Hc.
  - by intros [= <-].
Qed.

(** X6.  No runtime is in two places: in every reachable state of the
    pool of any configuration, the idle runtimes and the runtimes held by
    goroutines are pairwise distinct, and each of them was constructed by
    [newFn]. *)
Theorem runtimes_are_never_shared (MinCount MaxCount : Z) (name : string)
    (environment : Value) (modCache : RuntimeJSModuleCache)
    (cbs : Callbacks.t) (rp : RuntimeProviderJS) (T : nat) (s : Sys) :
  NewRuntimeProviderJS MinCount MaxCount name environment modCache cbs = Ret rp →
  rtc sys_step (initial_sys rp T) s →
  NoDup (owned_vms s)
  ∧ ∀ n, n ∈ owned_vms s → (n < newFn_calls (sys_pool s))%nat.
Proof.
  intros Hnew Hsteps.
  assert (ownership_inv s) as [Hnd Hlt].
  { pose proof (ownership_init rp T (NewRuntimeProviderJS_queue _ _ _ _ _ _ _ Hnew)) as Hinit.
    clear Hnew. induction Hsteps; eauto using ownership_step. }
  split; [done|]. by apply Forall_forall.
Qed.

(** *** The counter *)

Lemma counter_inv_step (c0 m : Z) (T : nat) (s s' : Sys) :
  0 ≤ c0 → m + Z.of_nat T ≤ 2 ^ 32 → c0 < 2 ^ 32 →
  counter_inv c0 m T s → sys_step s s' → counter_inv c0 m T s'.
Proof.
  unfold counter_inv.
  intros Hc0 HT Hc0' (Hmax & Hlen & Hlo & Hhi) Hstep.
  destruct Hstep as [rp ths i pc rp' pc' Hi Hth|rp ths i j r Hi Hj]; simpl in *.
  - pose proof (tally_insert at_inc ths i pc pc' Hi) as Ep.
    pose proof (tally_below_length at_inc ths i pc at_inc_le_1 Hi) as Hlt.
    pose proof (tally_lookup_le at_inc ths i pc Hi) as Hge.
    destruct Hth; simpl in *.
    all: try match goal with H : _ = pc_outside ∨ _ = pc_wait |- _ => destruct H; subst; simpl in * end.
    all: try match goal with H : chan_recv _ = Some _ |- _ =>
           unfold chan_recv in H; destruct (poolCh rp) eqn:?; simplify_eq/= end.
    all: try match goal with H : counter_Inc _ = _ |- _ =>
           unfold counter_Inc in H; simplify_eq/= end.
    all: try match goal with H : newFn _ = _ |- _ =>
           unfold newFn in H; simplify_eq/= end.
    all: try match goal with H : chan_send _ _ = Some _ |- _ =>
           unfold chan_send in H; case_decide; simplify_eq/= end.
    all: unfold counter_Load in *.
    all: try (rewrite uint32_small in * by lia).
    all: rewrite ?length_insert; split_and!; try done; lia.
  - assert (i ≠ j) as Hij by (intros ->; congruence).
    assert (<[i := pc_outside]> ths !! j = Some pc_wait) as Hj'
      by (by rewrite list_lookup_insert_ne).
    pose proof (tally_insert at_inc ths i _ pc_outside Hi) as Ep.
    pose proof (tally_insert at_inc _ j _ (pc_holding r) Hj') as Ep'.
    simpl in *. rewrite ?length_insert. split_and!; try done; lia.
Qed.

(** X7.  The counter never goes down, and it passes the limit by less
    than the number of goroutines: in every reachable state of the pool of
    a configuration with [0 ≤ MinCount ≤ MaxCount] whose counter cannot
    wrap around, [MinCount ≤ currentCount ≤ max MaxCount (MaxCount + T - 1)];
    and a step never decreases the counter. *)
Theorem counter_overshoot_is_bounded (MinCount MaxCount : Z) (name : string)
    (environment : Value) (modCache : RuntimeJSModuleCache)
    (cbs : Callbacks.t) (rp : RuntimeProviderJS) (T : nat) (s : Sys) :
  0 ≤ MinCount ≤ MaxCount →
  MaxCount + Z.of_nat T < 2 ^ 32 →
  NewRuntimeProviderJS MinCount MaxCount name environment modCache cbs = Ret rp →
  rtc sys_step (initial_sys rp T) s →
  MinCount ≤ currentCount (sys_pool s) ≤ Z.max MaxCount (MaxCount + Z.of_nat T - 1)
  ∧ ∀ s', sys_step s s' → currentCount (sys_pool s) ≤ currentCount (sys_pool s').
Proof.
  intros HMin HMax Hnew Hsteps.
  assert (0 ≤ MinCount < 2 ^ 32) as HMin' by lia.
  destruct (NewRuntimeProviderJS_inv _ _ _ _ _ _ _ T HMin' HMax Hnew)
    as (Hm & Hc & _ & _ & _).
  assert (counter_inv MinCount MaxCount T s) as (Hmax & Hlen & Hlo & Hhi).
  { assert (counter_inv MinCount MaxCount T (initial_sys rp T)) as Hinit.
    { unfold counter_inv, initial_sys. simpl.
      rewrite length_replicate, tally_replicate by done. lia. }
    clear Hnew Hm Hc. induction Hsteps as [|s1 s2 s3 Hst _ IH]; [done|].
    apply IH. eapply counter_inv_step; [..|exact Hinit|exact Hst]; lia. }
  split; [lia|].
  intros s' Hst.
  assert (counter_inv MinCount MaxCount T s) as Hinv by done.
  destruct Hst as [rp0 ths i pc rp' pc' Hi Hth|]; simpl in *; [|lia].
  pose proof (tally_lookup_le at_inc ths i pc Hi) as Hge.
  destruct Hth; simpl in *; try lia.
  - unfold chan_recv in *. destruct (poolCh rp0); simplify_eq/=. lia.
  - unfold counter_Inc in *. simplify_eq/=. rewrite uint32_small by lia. lia.
  - unfold newFn in *. simplify_eq/=. lia.
  - unfold chan_send in *. case_decide; simplify_eq/=. lia.
Qed.

(** ** More on the invocation bridge and the dispatchers *)

Section HooksMore.
Context {Message : Type} `{!Externals Message}.
Implicit Types (w : World Message) (r : RuntimeJS).

Lemma Get_never_panics sel ctx w w' msg : Get sel ctx w ≠ (w', Panic msg).
Proof. unfold Get. intros H. by run_cases. Qed.

(** The four hook dispatchers never panic: they unmarshal into a pointer
    only after the message behind it has been marshaled, and they check
    the result of the hook for nil before they use it. *)
Lemma hook_dispatchers_never_panic sel ctx id userID username vars expiry
    sessionID clientIP clientPort envelope res req w msg :
  (BeforeRt sel ctx id userID username vars expiry sessionID clientIP clientPort
     envelope w).2 ≠ Panic msg
  ∧ (AfterRt sel ctx id userID username vars expiry sessionID clientIP clientPort
       envelope w).2 ≠ Panic msg
  ∧ (BeforeReq sel ctx id userID username vars expiry clientIP clientPort req w).2
    ≠ Panic msg
  ∧ (AfterReq sel ctx id userID username vars expiry clientIP clientPort res req w).2
    ≠ Panic msg.
Proof.
  split_and!.
  - unfold BeforeRt, bind, InvokeFunction, MarshalToString, Put, bind, load, store,
      logger_Error, logger_Warn, ret.
    destruct (Get sel ctx w) as [w1 [[r|e]|m|]] eqn:HG;
      [..|by destruct (Get_never_panics _ _ _ _ _ HG)|done]; [|done].
    intros H. by run_cases.
  - unfold AfterRt, bind, InvokeFunction, MarshalToString, Put, bind, load, store,
      logger_Error, logger_Warn, ret.
    destruct (Get sel ctx w) as [w1 [[r|e]|m|]] eqn:HG;
      [..|by destruct (Get_never_panics _ _ _ _ _ HG)|done]; [|done].
    intros H. by run_cases.
  - unfold BeforeReq, bind, InvokeFunction, message_map, MarshalToString, Put, bind,
      load, store, logger_Error, logger_Warn, ret.
    destruct (Get sel ctx w) as [w1 [[r|e]|m|]] eqn:HG;
      [..|by destruct (Get_never_panics _ _ _ _ _ HG)|done]; [|done].
    intros H. by run_cases.
  - unfold AfterReq, bind, InvokeFunction, message_map, MarshalToString, Put, bind,
      load, store, logger_Error, logger_Warn, ret.
    destruct (Get sel ctx w) as [w1 [[r|e]|m|]] eqn:HG;
      [..|by destruct (Get_never_panics _ _ _ _ _ HG)|done]; [|done].
    intros H. by run_cases.
Qed.


(** X9.  A failed acquisition is passed on as it is: when [Get] returns an
    error, each of the five dispatchers returns that error (with the
    internal status where it returns a status) in the state [Get] left;
    no callback is looked up, nothing is marshaled, run or logged. *)
Theorem dispatch_passes_on_Get_error sel ctx id queryParams userID username vars
    expiry sessionID clientIP clientPort payload envelope res req w w1 err :
  Get sel ctx w = (w1, Ret (inr err)) →
  Rpc sel ctx id queryParams userID username vars expiry sessionID clientIP
    clientPort payload w = (w1, Ret ("", Some err, codes_Internal))
  ∧ BeforeRt sel ctx id userID username vars expiry sessionID clientIP clientPort
      envelope w = (w1, Ret (None, Some err))
  ∧ AfterRt sel ctx id userID username vars expiry sessionID clientIP clientPort
      envelope w = (w1, Ret (Some err))
  ∧ BeforeReq sel ctx id userID username vars expiry clientIP clientPort req w
    = (w1, Ret (iface_nil, Some err, codes_Internal))
  ∧ AfterReq sel ctx id userID username vars expiry clientIP clientPort res req w
    = (w1, Ret (Some err)).
Proof.
  intros HG. unfold Rpc, BeforeRt, AfterRt, BeforeReq, AfterReq, bind.
  by rewrite HG.
Qed.

(** X10.  After hooks only observe: on every path, also a failing one,
    [AfterRt] and [AfterReq] leave every message as it was. *)
Theorem After_hooks_write_no_message sel ctx id userID username vars expiry
    sessionID clientIP clientPort envelope res req w :
  messages (AfterRt sel ctx id userID username vars expiry sessionID clientIP
              clientPort envelope w).1 = messages w
  ∧ messages (AfterReq sel ctx id userID username vars expiry clientIP clientPort
                res req w).1 = messages w.
Proof.
  split.
  - unfold AfterRt, bind, InvokeFunction, Put, bind, MarshalToString, load,
      logger_Error, logger_Warn, ret.
    destruct (Get sel ctx w) as [w1 res1] eqn:HG.
    destruct (Get_messages _ _ _ _ _ HG) as [<- _].
    by run_cases.
  - unfold AfterReq, bind, InvokeFunction, message_map, Put, bind, MarshalToString, load,
      logger_Error, logger_Warn, ret.
    destruct (Get sel ctx w) as [w1 res1] eqn:HG.
    destruct (Get_messages _ _ _ _ _ HG) as [<- _].
    by run_cases.
Qed.

(** X11.  The value an After hook returns is ignored: when the hook of
    [AfterReq] runs without raising, [AfterReq] returns no error whatever
    the hook returned, and two hooks that differ in the value they return
    only leave the same state. *)
Theorem AfterReq_ignores_return_value sel ctx id userID username vars expiry
    clientIP clientPort res req w w1 r jsFn resMap reqMap resProto reqProto
    (retVal : option Value) :
  Get sel ctx w = (w1, Ret (inl r)) →
  GetCallback r RuntimeExecutionModeAfter id = Some jsFn →
  message_map r "response" res w1 = (w1, Ret (Some (resMap, resProto))) →
  message_map r "request" req w1 = (w1, Ret (Some (reqMap, reqProto))) →
  jsFn (invoke_args r RuntimeExecutionModeAfter None userID username vars expiry
          "" clientIP clientPort [map_any resMap; map_any reqMap]) = returns retVal None →
  AfterReq sel ctx id userID username vars expiry clientIP clientPort res req w
  = ((Put r w1).1, Ret None).
Proof.
  intros HG Hcb Hres Hreq Hfn. unfold AfterReq, bind. rewrite HG, Hcb, Hres, Hreq.
  unfold InvokeFunction. rewrite Hfn.
  destruct (Put_spec r w1) as (w2 & HP & _).
  destruct (nothing retVal); unfold ret; by rewrite HP.
Qed.

(** What [BeforeReq] returns is nil or the request it was given: with an
    error the result is nil; without one the status is [OK] and the result
    is nil or the very request. *)
Lemma BeforeReq_result_shape sel ctx id userID username vars expiry
    clientIP clientPort req w w' (out : Iface) (err : option error) (code : Code) :
  BeforeReq sel ctx id userID username vars expiry clientIP clientPort req w
    = (w', Ret (out, err, code)) →
  (out = iface_nil ∨ out = req)
  ∧ (err ≠ None → out = iface_nil)
  ∧ (err = None → code = codes_OK).
Proof.
  unfold BeforeReq, bind, InvokeFunction, message_map, Put, bind, MarshalToString, load, store,
    logger_Error, logger_Warn, ret.
  intros H. destruct (Get sel ctx w) as [w1 [[r|e]| |]]; run_cases;
    split_and!; auto; done.
Qed.

(** X12.  A Before hook overrides the request in place: when the request
    marshals to a map that is not nil and the hook returns a value that
    marshals and unmarshals, [BeforeReq] returns the request pointer it was
    given with [OK], and the message behind it is now the unmarshaled
    result; nothing else is written. *)
Theorem BeforeReq_overrides_request sel ctx id userID username vars expiry
    clientIP clientPort reqProto w w1 r jsFn msg reqJSON fields result
    resultJSON msg' :
  Get sel ctx w = (w1, Ret (inl r)) →
  GetCallback r RuntimeExecutionModeBefore id = Some jsFn →
  messages w !! reqProto = Some msg →
  jsonpb_MarshalToString msg = (reqJSON, None) →
  json_Unmarshal reqJSON = (Some fields, None) →
  jsFn (invoke_args r RuntimeExecutionModeBefore None userID username vars expiry
          "" clientIP clientPort [AnyMap fields]) = returns (Some result) None →
  nothing (Some result) = false →
  json_Marshal result = (resultJSON, None) →
  jsonpb_Unmarshal resultJSON msg = (msg', None) →
  ∃ w',
    BeforeReq sel ctx id userID username vars expiry clientIP clientPort
      (iface_message reqProto) w = (w', Ret (iface_message reqProto, None, codes_OK))
    ∧ messages w' = <[reqProto := msg']> (messages w)
    ∧ provider w' = provider (Put r w1).1.
Proof.
  intros HG Hcb Hmsg Hmar Hun Hfn Hn Hjm Hju.
  destruct (Get_messages _ _ _ _ _ HG) as [Hm1 _].
  unfold BeforeReq, bind. rewrite HG, Hcb.
  unfold message_map, bind, MarshalToString, load. rewrite Hm1, Hmsg, Hmar, Hun.
  unfold ret at 1. unfold InvokeFunction. simpl. rewrite Hfn, Hn.
  unfold ret at 1.
  destruct (Put_spec r w1) as (w2 & HP & Hm2). rewrite HP.
  rewrite Hjm. rewrite Hm2, Hm1, Hmsg, Hju.
  eexists. split; [done|]. simpl. split; [congruence|done].
Qed.

(** X13.  An RPC succeeds only with a string: when [Rpc] returns a payload
    and no error, the status is [OK], the callback registered under the id
    ran without raising and returned exactly that payload as a string, and
    nothing was logged. *)
Theorem Rpc_success_is_a_string sel ctx id queryParams userID username vars
    expiry sessionID clientIP clientPort payload w w' (out : string) (code : Code) :
  Rpc sel ctx id queryParams userID username vars expiry sessionID clientIP
    clientPort payload w = (w', Ret (out, None, code)) →
  code = codes_OK
  ∧ logged w' = logged w
  ∧ ∃ w1 r jsFn,
      Get sel ctx w = (w1, Ret (inl r))
      ∧ GetCallback r RuntimeExecutionModeRPC id = Some jsFn
      ∧ jsFn (invoke_args r RuntimeExecutionModeRPC queryParams userID username
                vars expiry sessionID clientIP clientPort [AnyString payload])
        = returns (Some (VString out)) None.
Proof.
  unfold Rpc, bind. intros H.
  destruct (Get sel ctx w) as [w1 [[r|e]| |]] eqn:HG; try done.
  destruct (Get_messages _ _ _ _ _ HG) as [_ Hl1].
  destruct (GetCallback r RuntimeExecutionModeRPC id) as [jsFn|] eqn:Hcb.
  2: { destruct (Put_spec r w1) as (w2 & HP & _). by rewrite HP in H. }
  unfold InvokeFunction, bind, logger_Error, ret in H.
  destruct (jsFn _) as [retVal [[??|?]|]|] eqn:Hfn; try done.
  destruct (nothing retVal) eqn:Hn; [done|].
  destruct retVal as [v|]; [|done].
  destruct v; simpl in H; try done. simplify_eq.
  split_and!; [done..|]. by exists w', r, jsFn.
Qed.

(** X14.  The function registered for a typed-request Before hook returns
    what [BeforeReq] returns, with the request pointer unwrapped: it never
    fails on its type assertion, a pointer it returns is the pointer it was
    given, and it returns a pointer only without an error and with [OK]. *)
Theorem beforeReqFunction_returns_its_input sel ctx id userID username vars
    expiry clientIP clientPort in_ w :
  ∃ w' res,
    beforeReqFunction sel ctx id userID username vars expiry clientIP clientPort
      in_ w = (w', res)
    ∧ res ≠ Panic "interface conversion"
    ∧ ∀ out err code, res = Ret (out, err, code) →
        BeforeReq sel ctx id userID username vars expiry clientIP clientPort
          (iface_message in_) w
        = (w', Ret (from_option iface_message iface_nil out, err, code))
        ∧ (out = None ∨ (out = Some in_ ∧ err = None ∧ code = codes_OK)).
Proof.
  unfold beforeReqFunction, bind.
  destruct (BeforeReq sel ctx id userID username vars expiry clientIP clientPort
              (iface_message in_) w) as [w' [[[out err] code]|msg|]] eqn:HB.
  - destruct (BeforeReq_result_shape _ _ _ _ _ _ _ _ _ _ _ _ _ _ _ HB)
      as ([->| ->] & Herr & Hok).
    + do 2 eexists. split; [done|]. split; [done|].
      intros ??? [= <- <- <-]. auto.
    + destruct err as [e|].
      * assert (iface_message in_ = iface_nil) as Habs by (by apply Herr).
        discriminate Habs.
      * rewrite (Hok eq_refl) in *.
        do 2 eexists. split; [done|]. split; [done|].
        intros ??? [= <- <- <-]. auto.
  - do 2 eexists. split; [done|]. split; [|by intros ??? [=]].
    intros [= ->].
    unfold BeforeReq, bind, InvokeFunction, message_map, Put, bind, MarshalToString, load, store,
      logger_Error, logger_Warn, ret in HB.
    destruct (Get sel ctx w) as [w1 [[r|e]|msg|]] eqn:HG;
      [..|by destruct (Get_never_panics _ _ _ _ _ HG)|]; by run_cases.
  - do 2 eexists. split; [done|]. split; [done|by intros ??? [=]].
Qed.
(** X15.  The function registered for the Before hook of [getaccount]
    returns the error and the status of [BeforeReq] on a nil request and
    nothing else: it returns exactly when [BeforeReq] does, in the same
    state, the result it drops is nil, the status without an error is [OK]
    on both sides, and no message is written. *)
Theorem beforeGetAccountFunction_is_BeforeReq_of_nil sel ctx id userID username
    vars expiry clientIP clientPort w w' (err : option error) (code : Code) :
  beforeGetAccountFunction sel ctx id userID username vars expiry clientIP
    clientPort w = (w', Ret (err, code))
  ↔ BeforeReq sel ctx id userID username vars expiry clientIP clientPort
      iface_nil w = (w', Ret (iface_nil, err, code))
    ∧ messages w' = messages w
    ∧ (err = None → code = codes_OK).
Proof.
  unfold beforeGetAccountFunction, bind.
  destruct (BeforeReq sel ctx id userID username vars expiry clientIP clientPort
              iface_nil w) as [w1 [[[out err1] code1]|msg|]] eqn:HB.
  - destruct (BeforeReq_nil_request_result _ _ _ _ _ _ _ _ _ _ _ _ _ _ HB)
      as [-> Hm].
    destruct (BeforeReq_result_shape _ _ _ _ _ _ _ _ _ _ _ _ _ _ _ HB)
      as (_ & _ & Hok).
    destruct err1 as [e|]; unfold ret.
    + split.
      * intros [= <- <- <-]. split_and!; done.
      * intros ([= <- <- <-] & _ & _). done.
    + rewrite (Hok eq_refl). split.
      * intros [= <- <- <-]. split_and!; done.
      * intros ([= <- <- <-] & _ & _). done.
  - split; [done|]. by intros [[=] _].
  - split; [done|]. by intros [[=] _].
Qed.
End HooksMore.

(** ** Loading the modules *)

Lemma last_named_None (n : string) (ms : list RuntimeJSModule) :
  n ∉ Name <$> ms → last_named n ms = None.
Proof.
  unfold last_named. intros Hn.
  assert (filter (λ m, Name m = n) ms = []) as ->; [|done].
  induction ms as [|m ms IH]; [done|].
  rewrite fmap_cons, not_elem_of_cons in Hn. destruct Hn as [Hne Hn].
  rewrite filter_cons_False by done. auto.
Qed.

(** X16.  For modules with pairwise distinct names the cache does not
    depend on the order of the additions: two runs of [Add] over the same
    modules build the same name list and the same mapping. *)
Theorem add_all_order_is_irrelevant (ms ms' : list RuntimeJSModule) :
  ms ≡ₚ ms' → NoDup (Name <$> ms) → add_all ms = add_all ms'.
Proof.
  intros Hp Hnd.
  assert (NoDup (Name <$> ms')) as Hnd' by (by rewrite <- Hp).
  assert (Names (add_all ms) = Names (add_all ms')) as HN.
  { rewrite !add_all_Names. apply sort_Strings_perm_eq. by rewrite Hp. }
  assert (Modules (add_all ms) = Modules (add_all ms')) as HM.
  { apply map_eq. intros n. rewrite !add_all_Modules.
    destruct (decide (n ∈ Name <$> ms)) as [Hin|Hnin].
    - apply list_elem_of_fmap in Hin as (m & -> & Hm).
      rewrite (last_named_NoDup ms m Hnd Hm).
      symmetry. apply last_named_NoDup; [done|]. by rewrite <- Hp.
    - rewrite (last_named_None n ms Hnin). symmetry. apply last_named_None.
      by rewrite <- Hp. }
  destruct (add_all ms), (add_all ms'). simpl in *. by subst.
Qed.

Section Loading.
Context `{Host}.

Lemma cache_paths_js_paths (paths : list string) (mc : RuntimeJSModuleCache) :
  cache_paths paths mc = cache_paths (js_paths paths) mc.
Proof.
  unfold js_paths. revert mc. induction paths as [|path paths IH]; intros mc; [done|].
  simpl. case_decide as Hext.
  - rewrite filter_cons_False by done. apply IH.
  - rewrite filter_cons_True by done. simpl.
    rewrite decide_False by (by intros ?).
    destruct (ioutil_ReadFile path); [|done].
    destruct (goja_Compile _ _); [|done]. by rewrite IH.
Qed.

(** The files read are the first [.js] paths of the list, in their order. *)
Lemma cache_paths_reads_prefix (paths : list string) (mc : RuntimeJSModuleCache) :
  (cache_paths paths mc).1.1 `prefix_of` js_paths paths.
Proof.
  unfold js_paths. revert mc. induction paths as [|path paths IH]; intros mc; [done|].
  simpl. case_decide as Hext.
  - rewrite filter_cons_False by done. apply IH.
  - rewrite filter_cons_True by done.
    destruct (ioutil_ReadFile path) as [content|]; [|by apply prefix_cons, prefix_nil].
    destruct (goja_Compile _ _) as [prg|]; [|by apply prefix_cons, prefix_nil].
    specialize (IH (Add mc {| Name := filepath_Base path; Path := path; Program := prg |})).
    destruct (cache_paths paths _) as [[reads logs] res]. simpl in *.
    by apply prefix_cons.
Qed.

(** X17.  Files whose extension is not [.js] in any mix of cases take no
    part: what [cacheJavascriptModules] logs and returns, and the files it
    reads, are the same for the list without them.  Such a file is never
    read: every file read is one of the paths and has the extension
    [.js], and the files are read in the order of the paths. *)
Theorem cacheJavascriptModules_skips_other_files (rootPath : string)
    (paths : list string) :
  cacheJavascriptModules rootPath paths
  = cacheJavascriptModules rootPath (js_paths paths)
  ∧ cacheJavascriptModules_reads rootPath paths
    = cacheJavascriptModules_reads rootPath (js_paths paths)
  ∧ cacheJavascriptModules_reads rootPath paths `prefix_of` js_paths paths
  ∧ ∀ path,
      path ∈ cacheJavascriptModules_reads rootPath paths →
      path ∈ paths ∧ strings_ToLower (filepath_Ext path) = ".js".
Proof.
  unfold cacheJavascriptModules, cacheJavascriptModules_reads.
  rewrite <- cache_paths_js_paths. split_and!; [done|done|..].
  - apply cache_paths_reads_prefix.
  - intros path Hin.
    pose proof (cache_paths_reads_prefix paths empty_cache) as [k Hk].
    assert (path ∈ js_paths paths) as Hjs by (rewrite Hk; set_solver).
    unfold js_paths in Hjs. apply list_elem_of_filter in Hjs as [??]. done.
Qed.

Lemma cache_paths_loaded (paths : list string) (ms : list RuntimeJSModule)
    (mc : RuntimeJSModuleCache) :
  Forall2 (λ path m, load_module path = inl m) (js_paths paths) ms →
  cache_paths paths mc = (js_paths paths, [], inl (foldl Add mc ms)).
Proof.
  rewrite cache_paths_js_paths.
  assert (Forall (λ path, strings_ToLower (filepath_Ext path) = ".js") (js_paths paths))
    as Hjs by (apply Forall_forall; intros ? [? _]%list_elem_of_filter; done).
  revert Hjs. generalize (js_paths paths) as l. intros l Hjs HF. revert mc.
  induction HF as [|path m l ms Hload HF IH]; intros mc; [done|].
  apply Forall_cons in Hjs as [Hext Hjs]. simpl.
  rewrite decide_False by (by intros ?).
  unfold load_module in Hload.
  destruct (ioutil_ReadFile path); [|done].
  destruct (goja_Compile _ _); [|done]. simplify_eq. by rewrite IH.
Qed.

Lemma load_module_Name (path : string) (m : RuntimeJSModule) :
  load_module path = inl m → Name m = filepath_Base path ∧ Path m = path.
Proof.
  unfold load_module. destruct (ioutil_ReadFile path); [|done].
  destruct (goja_Compile _ _); [|done]. by intros [= <-].
Qed.

(** X18.  When every [.js] file reads and compiles, the cache holds the
    modules of these files as [Add] builds it from them in the order of the
    paths, nothing is logged, and the names are the base names of the
    [.js] files in ascending order. *)
Theorem cacheJavascriptModules_loads_all (rootPath : string) (paths : list string)
    (ms : list RuntimeJSModule) :
  Forall2 (λ path m, load_module path = inl m) (js_paths paths) ms →
  cacheJavascriptModules rootPath paths = ([], inl (add_all ms))
  ∧ Names (add_all ms) = sort_Strings (filepath_Base <$> js_paths paths).
Proof.
  intros HF. split.
  { unfold cacheJavascriptModules. by rewrite (cache_paths_loaded _ ms). }
  rewrite add_all_Names. f_equal.
  induction HF as [|path m l ms' Hload HF IH]; [done|].
  rewrite !fmap_cons, IH. f_equal. by apply load_module_Name in Hload as [-> _].
Qed.

Lemma cache_paths_failure (before after : list string) (path : string)
    (err : error) (mc : RuntimeJSModuleCache) :
  Forall (λ p, strings_ToLower (filepath_Ext p) = ".js") (before ++ path :: after) →
  Forall (λ p, ∃ m, load_module p = inl m) before →
  load_module path = inr err →
  ∃ entry,
    cache_paths (before ++ path :: after) mc = (before ++ [path], [entry], inr err)
    ∧ log_level entry = level_Error.
Proof.
  intros Hjs Hbefore Hfail. revert mc.
  induction Hbefore as [|p before [m Hm] _ IH]; intros mc; simpl in *.
  - apply Forall_cons in Hjs as [Hext _].
    rewrite decide_False by (by intros ?).
    unfold load_module in Hfail.
    destruct (ioutil_ReadFile path); [|simplify_eq; by eexists].
    destruct (goja_Compile _ _); [done|]. simplify_eq. by eexists.
  - apply Forall_cons in Hjs as [Hext Hjs].
    rewrite decide_False by (by intros ?).
    unfold load_module in Hm.
    destruct (ioutil_ReadFile p); [|done].
    destruct (goja_Compile _ _); [|done].
    edestruct (IH Hjs) as (entry & -> & Hlevel). by eexists.
Qed.

(** X19.  All or nothing: at the first [.js] file that cannot be read or
    compiled, [cacheJavascriptModules] returns the error of that file and
    no cache, with one log entry, whatever the files after it are: the
    files read are the [.js] files up to the failing one, and no file after
    it is read. *)
Theorem cacheJavascriptModules_first_failure (rootPath : string)
    (paths before after : list string) (path : string) (err : error) :
  js_paths paths = before ++ path :: after →
  Forall (λ p, ∃ m, load_module p = inl m) before →
  load_module path = inr err →
  (∃ entry,
     cacheJavascriptModules rootPath paths = ([entry], inr err)
     ∧ log_level entry = level_Error)
  ∧ cacheJavascriptModules_reads rootPath paths = before ++ [path].
Proof.
  unfold cacheJavascriptModules, cacheJavascriptModules_reads.
  rewrite cache_paths_js_paths.
  assert (Forall (λ path, strings_ToLower (filepath_Ext path) = ".js") (js_paths paths))
    as Hjs by (apply Forall_forall; intros ? [? _]%list_elem_of_filter; done).
  intros Heq Hbefore Hfail. rewrite Heq in *.
  destruct (cache_paths_failure before after path err empty_cache Hjs Hbefore Hfail)
    as (entry & -> & Hlevel).
  split; [by exists entry|done].
Qed.
End Loading.

(** ** Evaluating the modules *)

Section Evaluating.
Context `{Host} `{Engine VM}.



(** X21.  [CheckRuntimeProviderJavascript] never reports success: it
    returns the error of [cacheJavascriptModules] when the modules do not
    load, and when they load it panics, because it passes a nil provider to
    [evalRuntimeModules], which reads the logger through it. *)
Theorem CheckRuntimeProviderJavascript_never_succeeds (config_Path name : string)
    (environment : gmap string string) (paths : list string) :
  (∀ logs, CheckRuntimeProviderJavascript (VM := VM) config_Path name environment paths
           ≠ Ret (logs, None))
  ∧ (∀ logs err,
       cacheJavascriptModules config_Path paths = (logs, inr err) →
       CheckRuntimeProviderJavascript (VM := VM) config_Path name environment paths
       = Ret (logs, Some (inr err)))
  ∧ (∀ logs modCache,
       cacheJavascriptModules config_Path paths = (logs, inl modCache) →
       CheckRuntimeProviderJavascript (VM := VM) config_Path name environment paths
       = Panic "invalid memory address or nil pointer dereference").
Proof.
  unfold CheckRuntimeProviderJavascript, evalRuntimeModules.
  destruct (cacheJavascriptModules config_Path paths) as [logs [mc|err]];
    split_and!; try done; by intros ?? [= <- <-].
Qed.
End Evaluating.

(** ** The further properties on sample data *)

Lemma Put_then_Get_reuses_witness :
  ∃ w1 w2 r',
    Put (sample_runtime 0) (sample_world [] 1 1) = (w1, Ret tt)
    ∧ Get ready_recv (ctx_pending None) w1 = (w2, Ret (inl r'))
    ∧ r' = sample_runtime 0 ∧ w2 = sample_world [] 1 1.
Proof.
  destruct (Put_then_Get_reuses ready_recv None (sample_world [] 1 1) (sample_runtime 0))
    as (w1 & w2 & r' & HP & HG & _ & _ & _ & _ & Hsame).
  - simpl. lia.
  - exists w1, w2, r'. split_and!; [exact HP|exact HG|apply Hsame; reflexivity..].
Defined.

Lemma checkout_exhausts_pool_witness :
  ∃ w' rs,
    checkout (Z.to_nat 2) (sample_world [sample_runtime 0] 1 1) = (w', Some rs)
    ∧ vm <$> rs = seq 0 (Z.to_nat 2)
    ∧ newFn_calls (provider w') = Z.to_nat 2
    ∧ Get ready_recv (ctx_pending None) w' = (w', Blocked).
Proof.
  apply (checkout_exhausts_pool 1 2 "node1" (VObject []) sample_cache sample_callbacks
           (sample_provider [sample_runtime 0] 1 1)).
  - lia.
  - lia.
  - vm_compute. discriminate.
  - vm_compute. reflexivity.
  - reflexivity.
Defined.

Lemma Put_always_finds_room_witness :
  Z.of_nat (length (poolCh (sys_pool sample_run_end))) < poolCh_cap (sys_pool sample_run_end)
  ∧ chan_send (sys_pool sample_run_end) (sample_runtime 1)
    = Some (with_poolCh (poolCh (sys_pool sample_run_end) ++ [sample_runtime 1])
              (sys_pool sample_run_end)).
Proof.
  apply (Put_always_finds_room 1 2 "node1" (VObject []) sample_cache sample_callbacks
           (sample_provider [sample_runtime 0] 1 1) 3 sample_run_end 1 (sample_runtime 1)).
  - lia.
  - vm_compute. reflexivity.
  - vm_compute. reflexivity.
  - exact sample_run.
  - reflexivity.
Defined.

Lemma runtimes_are_never_shared_witness :
  NoDup (owned_vms sample_run_end)
  ∧ ∀ n, n ∈ owned_vms sample_run_end → (n < newFn_calls (sys_pool sample_run_end))%nat.
Proof.
  apply (runtimes_are_never_shared 1 2 "node1" (VObject []) sample_cache sample_callbacks
           (sample_provider [sample_runtime 0] 1 1) 3 sample_run_end).
  - vm_compute. reflexivity.
  - exact sample_run.
Defined.

Lemma counter_overshoot_is_bounded_witness :
  1 ≤ currentCount (sys_pool sample_run_end) ≤ Z.max 2 (2 + Z.of_nat 3 - 1)
  ∧ ∀ s', sys_step sample_run_end s' →
          currentCount (sys_pool sample_run_end) ≤ currentCount (sys_pool s').
Proof.
  apply (counter_overshoot_is_bounded 1 2 "node1" (VObject []) sample_cache sample_callbacks
           (sample_provider [sample_runtime 0] 1 1) 3 sample_run_end).
  - lia.
  - vm_compute. reflexivity.
  - vm_compute. reflexivity.
  - exact sample_run.
Defined.

Lemma dispatch_passes_on_Get_error_witness :
  let w := sample_world [] 2 2 in
  Rpc ready_done (ctx_done context_Canceled) "echo" None "u1" "ann" None 0 "s1"
    "10.0.0.1" "7350" "ping" w = (w, Ret ("", Some context_Canceled, codes_Internal))
  ∧ BeforeReq ready_done (ctx_done context_Canceled) "api.getaccount" "u1" "ann" None 0
      "10.0.0.1" "7350" iface_nil w = (w, Ret (iface_nil, Some context_Canceled, codes_Internal)).
Proof.
  intros w.
  destruct (dispatch_passes_on_Get_error ready_done (ctx_done context_Canceled) "echo"
              None "u1" "ann" None 0 "s1" "10.0.0.1" "7350" "ping" 1%positive
              iface_nil iface_nil w w context_Canceled) as (HR & _).
  { vm_compute. reflexivity. }
  destruct (dispatch_passes_on_Get_error ready_done (ctx_done context_Canceled)
              "api.getaccount" None "u1" "ann" None 0 "s1" "10.0.0.1" "7350" "ping"
              1%positive iface_nil iface_nil w w context_Canceled) as (_ & _ & _ & HB & _).
  { vm_compute. reflexivity. }
  split; [exact HR|exact HB].
Defined.

Lemma AfterReq_ignores_return_value_witness :
  AfterReq ready_recv (ctx_pending None) "api.updateaccount" "u1" "ann" None 0
    "10.0.0.1" "7350" iface_nil (iface_message 1) (hook_world [hook_runtime 0])
  = (hook_world [hook_runtime 0], Ret None).
Proof.
  rewrite (AfterReq_ignores_return_value ready_recv (ctx_pending None)
             "api.updateaccount" "u1" "ann" None 0 "10.0.0.1" "7350" iface_nil
             (iface_message 1) (hook_world [hook_runtime 0]) (hook_world [])
             (hook_runtime 0) js_number None (Some [("text", AnyString "request")])
             None (Some 1%positive) (Some (VNumber 7))).
  - vm_compute. reflexivity.
  - vm_compute. reflexivity.
  - vm_compute. reflexivity.
  - vm_compute. reflexivity.
  - vm_compute. reflexivity.
  - vm_compute. reflexivity.
Defined.

Lemma BeforeReq_overrides_request_witness :
  ∃ w',
    BeforeReq ready_recv (ctx_pending None) "api.updateaccount" "u1" "ann" None 0
      "10.0.0.1" "7350" (iface_message 1) (hook_world [hook_runtime 0])
    = (w', Ret (iface_message 1, None, codes_OK))
    ∧ messages w' = <[1%positive := "changed"]> (messages (hook_world [hook_runtime 0]))
    ∧ provider w' = provider (Put (hook_runtime 0) (hook_world [])).1.
Proof.
  apply (BeforeReq_overrides_request ready_recv (ctx_pending None) "api.updateaccount"
           "u1" "ann" None 0 "10.0.0.1" "7350" 1%positive (hook_world [hook_runtime 0])
           (hook_world []) (hook_runtime 0) js_text "request" "request"
           [("text", AnyString "request")] (VString "changed") "changed" "changed").
  all: vm_compute; reflexivity.
Defined.

Lemma Rpc_success_is_a_string_witness :
  codes_OK = codes_OK
  ∧ logged (sample_world [] 1 1) = logged (sample_world [sample_runtime 0] 1 1)
  ∧ ∃ w1 r jsFn,
      Get ready_recv (ctx_pending None) (sample_world [sample_runtime 0] 1 1)
        = (w1, Ret (inl r))
      ∧ GetCallback r RuntimeExecutionModeRPC "echo" = Some jsFn
      ∧ jsFn (invoke_args r RuntimeExecutionModeRPC None "u1" "ann" None 0 "s1"
                "10.0.0.1" "7350" [AnyString "ping"])
        = returns (Some (VString "ping")) None.
Proof.
  apply (Rpc_success_is_a_string ready_recv (ctx_pending None) "echo" None "u1" "ann"
           None 0 "s1" "10.0.0.1" "7350" "ping" (sample_world [sample_runtime 0] 1 1)
           (sample_world [] 1 1) "ping" codes_OK).
  vm_compute. reflexivity.
Defined.

Lemma add_all_order_is_irrelevant_witness :
  add_all [module_m; module_a_x] = add_all [module_a_x; module_m].
Proof.
  apply add_all_order_is_irrelevant.
  - apply Permutation_swap.
  - vm_compute. repeat constructor; set_solver.
Defined.

(** With two modules of one name the order does matter. *)
Example add_all_order_matters_for_one_name :
  add_all [module_a_x; module_b_x] ≠ add_all [module_b_x; module_a_x].
Proof.
  intros Heq. apply (f_equal (λ mc, Modules mc !! "x.js")) in Heq.
  rewrite !add_all_Modules in Heq. vm_compute in Heq. discriminate Heq.
Qed.

Lemma cacheJavascriptModules_loads_all_witness :
  cacheJavascriptModules "mods" ["mods/b.JS"; "README.md"; "mods/a.js"]
    = ([], inl (add_all [module_b; module_a]))
  ∧ Names (add_all [module_b; module_a])
    = sort_Strings (filepath_Base <$> js_paths ["mods/b.JS"; "README.md"; "mods/a.js"]).
Proof.
  apply cacheJavascriptModules_loads_all.
  vm_compute. repeat constructor.
Defined.

Lemma cacheJavascriptModules_first_failure_witness :
  (∃ entry,
     cacheJavascriptModules "mods" ["mods/a.js"; "README.md"; "bad.js"; "gone.js"]
       = ([entry], inr (errors_New "SyntaxError"))
     ∧ log_level entry = level_Error)
  ∧ cacheJavascriptModules_reads "mods" ["mods/a.js"; "README.md"; "bad.js"; "gone.js"]
    = ["mods/a.js"; "bad.js"].
Proof.
  apply (cacheJavascriptModules_first_failure "mods" _ ["mods/a.js"] ["gone.js"] "bad.js").
  - vm_compute. reflexivity.
  - repeat constructor. exists module_a. vm_compute. reflexivity.
  - vm_compute. reflexivity.
Defined.

(** The text file between two modules is not read. *)
Example cacheJavascriptModules_reads_sample :
  cacheJavascriptModules_reads "mods" ["mods/b.JS"; "README.md"; "mods/a.js"]
  = ["mods/b.JS"; "mods/a.js"].
Proof. vm_compute. reflexivity. Qed.

Example CheckRuntimeProviderJavascript_sample :
  CheckRuntimeProviderJavascript (VM := nat) "mods" "node1" ∅ ["mods/a.js"]
    = Panic "invalid memory address or nil pointer dereference"
  ∧ CheckRuntimeProviderJavascript (VM := nat) "mods" "node1" ∅ ["gone.js"]
    = Ret ([mkLog level_Error "Could not read Javascript module"],
           Some (inr (errors_New "open gone.js: no such file"))).
Proof. split; vm_compute; reflexivity. Qed.

(** With a provider, the same modules evaluate to the callbacks; a module
    whose program loops keeps the call from returning. *)
Example evalRuntimeModules_sample :
  evalRuntimeModules (VM := nat) (Some (sample_provider [] 0 0))
    (add_all [module_b; module_a]) "node1" ∅
  = Ret ([], inl sample_callbacks)
  ∧ evalRuntimeModules (VM := nat) (Some (sample_provider [] 0 0))
      (add_all [module_a; module_spin]) "node1" ∅
    = Blocked.
Proof. split; vm_compute; reflexivity. Qed.

(** A hook that never returns: the dispatch does not return either, and
    the runtime it took stays checked out. *)
Example dispatch_of_hook_that_never_returns :
  BeforeRt ready_recv (ctx_pending None) "rt.spin" "u1" "ann" None 0 "s1"
    "10.0.0.1" "7350" 1%positive (spin_world [spin_runtime 0])
  = (spin_world [], Blocked)
  ∧ Rpc ready_recv (ctx_pending None) "spin" None "u1" "ann" None 0 "s1"
      "10.0.0.1" "7350" "{}" (spin_world [spin_runtime 0])
    = (spin_world [], Blocked).
Proof. split; vm_compute; reflexivity. Qed.

(** A nil envelope: the marshaler refuses it, the runtime is put back and
    the failure is logged and returned. *)
Example BeforeRt_nil_envelope :
  BeforeRt ready_recv (ctx_pending None) "rt.change" "u1" "ann" None 0 "s1"
    "10.0.0.1" "7350" 2%positive (sample_world [sample_runtime 0] 1 1)
  = (with_log (mkLog level_Error "Could not marshall envelope to JSON")
       (sample_world [sample_runtime 0] 1 1),
     Ret (None, Some (errors_New "Could not run runtime Before function."))).
Proof. vm_compute. reflexivity. Qed.

Lemma beforeGetAccountFunction_is_BeforeReq_of_nil_witness :
  BeforeReq ready_recv (ctx_pending None) "api.getaccount" "u1" "ann" None 0
    "10.0.0.1" "7350" iface_nil (sample_world [sample_runtime 0] 1 1)
  = (sample_world [sample_runtime 0] 1 1, Ret (iface_nil, None, codes_OK)).
Proof.
  apply (beforeGetAccountFunction_is_BeforeReq_of_nil ready_recv (ctx_pending None)
           "api.getaccount" "u1" "ann" None 0 "10.0.0.1" "7350"
           (sample_world [sample_runtime 0] 1 1) (sample_world [sample_runtime 0] 1 1)
           None codes_OK).
  vm_compute. reflexivity.
Defined.
